(** * ARC renderer shell: call correlator, debounce registry, command router
      and start-up sequence.

    Shallow embedding of [src/scripts/main/arc-base.js] (class [ArcBase]) and
    [src/app.js] (class [ArcInit]).  JavaScript objects become records,
    mutation becomes explicit state passing, [throw] becomes the [Throw]
    branch of [result], and the platform services the classes rely on
    (promises, timers, the logger, the IPC channel, the DOM) are modelled by
    the part of their behaviour the sources use. *)

From stdpp Require Import base numbers list strings gmap.
From Stdlib Require Import ZArith Lia Ascii.

Local Open Scope string_scope.
Local Open Scope list_scope.
Local Open Scope Z_scope.

(** ** JavaScript values and the array primitives used by the sources *)
Module Js.

(** Data that crosses the process boundary as an IPC argument;
    [VRecord] is an object literal, [VObject] an object known by its
    identity only. *)
#[warnings="-register-all"]
Inductive value : Type :=
| VUndefined
| VNull
| VBool (b : bool)
| VNum (n : Z)
| VStr (s : string)
| VArr (items : list value)
| VRecord (fields : list (string * value))
| VObject (ref : nat).

(** A thrown [Error] object: constructor name and [message]. *)
Record Error : Type := mkError { ename : string; message : string }.

Definition newError (msg : string) : Error := mkError "Error" msg.
Definition TypeError (msg : string) : Error := mkError "TypeError" msg.

(** Completion of a call: normal return or a raised exception. *)
Inductive result (A : Type) : Type :=
| Ok (a : A)
| Throw (e : Error).
Arguments Ok {A} a.
Arguments Throw {A} e.

(** [Array.prototype.findIndex]: index of the first element satisfying
    the predicate, [-1] when there is none. *)
Fixpoint findIndex_from {A} (p : A -> bool) (l : list A) (i : Z) : Z :=
  match l with
  | [] => -1
  | x :: r => if p x then i else findIndex_from p r (i + 1)
  end.

Definition findIndex {A} (p : A -> bool) (l : list A) : Z :=
  findIndex_from p l 0.

(** [arr[index]]: [None] stands for [undefined]. *)
Definition at_index {A} (l : list A) (index : Z) : option A :=
  if index <? 0 then None else l !! Z.to_nat index.

(** [Array.prototype.splice(start, deleteCount)] without inserted items.
    A negative [start] counts from the end of the array. *)
Definition splice {A} (start deleteCount : Z) (l : list A) : list A :=
  let len := Z.of_nat (length l) in
  let actualStart :=
    if start <? 0 then Z.max (len + start) 0 else Z.min start len in
  let actualDeleteCount := Z.min (Z.max deleteCount 0) (len - actualStart) in
  take (Z.to_nat actualStart) l
    ++ drop (Z.to_nat (actualStart + actualDeleteCount)) l.

(** [args[i]] on a rest-parameter array: absent positions read
    [undefined]. *)
Definition arg (args : list value) (i : nat) : value :=
  default VUndefined (args !! i).

(** Largest integer up to which every integer is a double:
    [Number.MAX_SAFE_INTEGER + 1 = 2^53]. *)
Definition TWO_53 : Z := 9007199254740992.

(** [++x] on a Number holding a non-negative integer.  Below [2^53] the
    sum is exact; at [2^53] the exact sum [2^53 + 1] is not a double and
    rounds (ties to even) back to [2^53]. *)
Definition incr (x : Z) : Z := if x <? TWO_53 then x + 1 else x.

End Js.
Export Js.

(** ** [ArcBase]: call correlator and debounce registry *)
Module ArcBase.

(** Promise objects live in a heap; a handle is the position of the
    promise in it. *)
Definition handle := nat.

Inductive settlement : Type :=
| Pending
| Resolved (v : value)
| Rejected (v : value).

(** [settle_calls] counts the invocations of the promise's [resolve] and
    [reject] functions. *)
Record promise : Type := mkPromise {
  status : settlement;
  settle_calls : nat
}.

(** The object pushed by [appendPromise]: [{id, resolve, reject}].  The two
    resolving functions belong to one promise, named by its handle. *)
Record PendingCall : Type := mkPendingCall {
  id : Z;
  target : handle
}.

(** Opaque task: the [callback] given to [debounce]. *)
Definition callback := nat.

(** Entry of [_debouncers]: [{name, id}]. *)
Record Debouncer : Type := mkDebouncer {
  name : string;
  cancelId : nat
}.

(** A timer armed by [setTimeout]; the closure captures [name] and
    [callback]. *)
Record Timer : Type := mkTimer {
  timerId : nat;
  due : Z;
  closure_name : string;
  closure_callback : callback
}.

Inductive log_entry : Type :=
| LogReceived (id : Z) (isError : bool) (args : list value)
| LogNotFound (id : Z)
| LogRejecting
| LogResolving.

Record state : Type := mkState {
  (* fields of the object *)
  _ipcRequestId : Z;
  _promises : list PendingCall;
  _debouncers : list Debouncer;
  (* platform *)
  heap : list promise;
  timers : list Timer;
  nextTimerId : nat;
  now : Z;
  invoked : list (Z * string * callback);
  log : list log_entry
}.

(** State left by the constructor. *)
Definition init : state :=
  mkState 0 [] [] [] [] 0 0 [] [].

Definition set_ipcRequestId (v : Z) (s : state) : state :=
  mkState v (_promises s) (_debouncers s) (heap s) (timers s)
          (nextTimerId s) (now s) (invoked s) (log s).
Definition set_promises (v : list PendingCall) (s : state) : state :=
  mkState (_ipcRequestId s) v (_debouncers s) (heap s) (timers s)
          (nextTimerId s) (now s) (invoked s) (log s).
Definition set_debouncers (v : list Debouncer) (s : state) : state :=
  mkState (_ipcRequestId s) (_promises s) v (heap s) (timers s)
          (nextTimerId s) (now s) (invoked s) (log s).
Definition set_heap (v : list promise) (s : state) : state :=
  mkState (_ipcRequestId s) (_promises s) (_debouncers s) v (timers s)
          (nextTimerId s) (now s) (invoked s) (log s).
Definition set_timers (v : list Timer) (s : state) : state :=
  mkState (_ipcRequestId s) (_promises s) (_debouncers s) (heap s) v
          (nextTimerId s) (now s) (invoked s) (log s).
Definition set_nextTimerId (v : nat) (s : state) : state :=
  mkState (_ipcRequestId s) (_promises s) (_debouncers s) (heap s)
          (timers s) v (now s) (invoked s) (log s).
Definition set_now (v : Z) (s : state) : state :=
  mkState (_ipcRequestId s) (_promises s) (_debouncers s) (heap s)
          (timers s) (nextTimerId s) v (invoked s) (log s).
Definition set_invoked (v : list (Z * string * callback)) (s : state)
  : state :=
  mkState (_ipcRequestId s) (_promises s) (_debouncers s) (heap s)
          (timers s) (nextTimerId s) (now s) v (log s).
Definition write_log (e : log_entry) (s : state) : state :=
  mkState (_ipcRequestId s) (_promises s) (_debouncers s) (heap s)
          (timers s) (nextTimerId s) (now s) (invoked s) (log s ++ [e]).

(** *** Promises *)

(** A promise's [resolve]/[reject]: the first call settles it, later calls
    leave the settled state alone. *)
Definition settle (h : handle) (outcome : settlement) (s : state) : state :=
  match heap s !! h with
  | Some p =>
      let st := match status p with Pending => outcome | st => st end in
      set_heap (<[h := mkPromise st (S (settle_calls p))]> (heap s)) s
  | None => s
  end.

(** *** Call correlator *)

Definition nextIpcRequestId (s : state) : Z * state :=
  let v := Js.incr (_ipcRequestId s) in
  (v, set_ipcRequestId v s).

Definition appendPromise (id : Z) (s : state) : handle * state :=
  let p := length (heap s) in
  let s := set_heap (heap s ++ [mkPromise Pending 0]) s in
  let obj := mkPendingCall id p in
  (p, set_promises (_promises s ++ [obj]) s).

Definition _ipcPromiseCallback (id0 : Z) (isError : bool)
           (args : list value) (s : state) : result unit * state :=
  let s := write_log (LogReceived id0 isError args) s in
  let index := findIndex (fun p => id p =? id0) (_promises s) in
  if index =? -1 then
    let s := write_log (LogNotFound id0) s in
    (Throw (newError "Promise not found"), s)
  else
    match at_index (_promises s) index with
    | None =>
        (* not reached: [index] is a position of [_promises] *)
        let s := set_promises (splice index 1 (_promises s)) s in
        let s := write_log (if isError then LogRejecting else LogResolving) s in
        (Throw (TypeError "Cannot read properties of undefined"), s)
    | Some promise =>
        let s := set_promises (splice index 1 (_promises s)) s in
        if isError then
          let s := write_log LogRejecting s in
          if Z.of_nat (length args) =? 1 then
            (Ok (), settle (target promise) (Rejected (arg args 0)) s)
          else
            (Ok (), settle (target promise) (Rejected (VArr args)) s)
        else
          let s := write_log LogResolving s in
          if Z.of_nat (length args) =? 1 then
            (Ok (), settle (target promise) (Resolved (arg args 0)) s)
          else
            (Ok (), settle (target promise) (Resolved (VArr args)) s)
    end.

(** *** Debounce registry *)

Definition _debounceIndex (name0 : string) (s : state) : Z :=
  findIndex (fun item => String.eqb (name item) name0) (_debouncers s).

(** Longest delay a timer of the main process takes, [2 ** 31 - 1]
    milliseconds. *)
Definition TIMEOUT_MAX : Z := 2147483647.

(** The delay a timer is armed with.  The main process runs on Node, whose
    timers do [if (!(after >= 1 && after <= TIMEOUT_MAX)) after = 1]: a
    delay below one millisecond or above [TIMEOUT_MAX] counts as one
    millisecond.  Delays are whole milliseconds. *)
Definition timer_delay (time : Z) : Z :=
  if (1 <=? time) && (time <=? TIMEOUT_MAX) then time else 1.

(** [setTimeout(closure, time)]: arms a timer that is due
    [timer_delay time] milliseconds from now and returns its id. *)
Definition setTimeout (name0 : string) (cb : callback) (time : Z)
           (s : state) : nat * state :=
  let tid := nextTimerId s in
  let t := mkTimer tid (now s + timer_delay time) name0 cb in
  (tid, set_nextTimerId (S tid) (set_timers (timers s ++ [t]) s)).

(** [clearTimeout(id)]: disarms the timer with that id, if any. *)
Definition clearTimeout (tid : nat) (s : state) : state :=
  set_timers (filter (fun t => timerId t <> tid) (timers s)) s.

(** The guard [if (!this._debouncers)] never fires: the field always holds
    an array, and an array is truthy. *)
Definition debounce (name0 : string) (cb : callback) (time : Z)
           (s : state) : state :=
  let index := _debounceIndex name0 s in
  if negb (index =? -1) then s
  else
    let '(cancelId, s) := setTimeout name0 cb time s in
    set_debouncers (_debouncers s ++ [mkDebouncer name0 cancelId]) s.

Definition cancelDebounce (name0 : string) (s : state) : state :=
  let index := _debounceIndex name0 s in
  if index =? -1 then s
  else
    match at_index (_debouncers s) index with
    | None => s (* not reached: [index] is a position of [_debouncers] *)
    | Some debounce =>
        let s := clearTimeout (cancelId debounce) s in
        set_debouncers (splice index 1 (_debouncers s)) s
    end.

(** Body of the arrow function given to [setTimeout] by [debounce]. *)
Definition timer_closure (name0 : string) (cb : callback) (s : state)
  : state :=
  let index := _debounceIndex name0 s in
  let s := set_debouncers (splice index 1 (_debouncers s)) s in
  set_invoked (invoked s ++ [(now s, name0, cb)]) s.

(** The event loop runs an armed timer: the timer is disarmed, the clock
    stands at its due time (or later), and the closure is called. *)
Definition fire (t : Timer) (s : state) : state :=
  let s := clearTimeout (timerId t) s in
  let s := set_now (Z.max (now s) (due t)) s in
  timer_closure (closure_name t) (closure_callback t) s.

(** Earliest timer due at or before [T]; among equal due times the one
    armed first. *)
Fixpoint next_due (T : Z) (l : list Timer) : option Timer :=
  match l with
  | [] => None
  | t :: r =>
      match next_due T r with
      | Some u => if due t <=? T
                  then (if due t <=? due u then Some t else Some u)
                  else Some u
      | None => if due t <=? T then Some t else None
      end
  end.

Fixpoint run_timers (fuel : nat) (T : Z) (s : state) : state :=
  match fuel with
  | O => s
  | S fuel =>
      match next_due T (timers s) with
      | Some t => run_timers fuel T (fire t s)
      | None => s
      end
  end.

(** [d] milliseconds pass: every timer that falls due is run, in due
    order. *)
Definition advance (d : Z) (s : state) : state :=
  let T := now s + Z.max 0 d in
  set_now T (run_timers (length (timers s)) T s).

(** Invocations of the task scheduled under [name0], oldest first, as
    (time, callback). *)
Definition invocations (name0 : string) (s : state) : list (Z * callback) :=
  omap (fun '(t, n, cb) => if String.eqb n name0 then Some (t, cb) else None)
       (invoked s).

(** Names of the live debouncers. *)
Definition live (s : state) : list string := map name (_debouncers s).

(** A debouncer and the timer armed for it. *)
Definition linked (d : Debouncer) (t : Timer) : Prop :=
  name d = closure_name t /\ cancelId d = timerId t.

(** The registry and the armed timers agree: entry by entry a debouncer
    and its timer, no name and no timer id twice, every timer id already
    handed out, no timer overdue. *)
Definition registry_ok (s : state) : Prop :=
  Forall2 linked (_debouncers s) (timers s) /\
  NoDup (live s) /\
  NoDup (map timerId (timers s)) /\
  Forall (fun t => (timerId t < nextTimerId s)%nat /\ now s <= due t)
         (timers s).

(** Invocations that the timers armed under [name0] and due by [T] are
    going to make. *)
Definition due_invocations (name0 : string) (T : Z) (l : list Timer)
  : list (Z * callback) :=
  omap (fun t => if String.eqb (closure_name t) name0 && (due t <=? T)
                 then Some (due t, closure_callback t) else None) l.

(** States the object goes through: the constructor's state and whatever
    the methods and the passing of time make of it. *)
Inductive reachable : state -> Prop :=
| reach_init : reachable init
| reach_debounce s n cb time :
    reachable s -> reachable (debounce n cb time s)
| reach_cancelDebounce s n :
    reachable s -> reachable (cancelDebounce n s)
| reach_advance s d :
    reachable s -> reachable (advance d s)
| reach_nextIpcRequestId s :
    reachable s -> reachable (snd (nextIpcRequestId s))
| reach_appendPromise s k :
    reachable s -> reachable (snd (appendPromise k s))
| reach_ipcPromiseCallback s k e args :
    reachable s -> reachable (snd (_ipcPromiseCallback k e args s)).

(** *** Sequences of correlator operations *)

Inductive op : Type :=
| Issue (id : Z)
| Complete (id : Z) (isError : bool) (args : list value).

(** Runs the operations in order and collects, for every [Issue], the id
    and the handle [appendPromise] returned; stops at the first throw. *)
Fixpoint run (ops : list op) (s : state)
  : result (list (Z * handle)) * state :=
  match ops with
  | [] => (Ok [], s)
  | Issue k :: ops =>
      let '(h, s) := appendPromise k s in
      match run ops s with
      | (Ok outs, s) => (Ok ((k, h) :: outs), s)
      | (Throw e, s) => (Throw e, s)
      end
  | Complete k isError args :: ops =>
      match _ipcPromiseCallback k isError args s with
      | (Ok _, s) => run ops s
      | (Throw e, s) => (Throw e, s)
      end
  end.

(** [n] calls of [nextIpcRequestId] in a row: the values returned. *)
Fixpoint nextIds (n : nat) (s : state) : list Z * state :=
  match n with
  | O => ([], s)
  | S n =>
      let '(v, s) := nextIpcRequestId s in
      let '(vs, s) := nextIds n s in
      (v :: vs, s)
  end.

(** *** The correlator as the specification words it *)

(** Removes the first occurrence of [k]. *)
Fixpoint remove_first (k : Z) (l : list Z) : list Z :=
  match l with
  | [] => []
  | x :: r => if x =? k then r else x :: remove_first k r
  end.

(** Every completed id was issued before and is not yet completed:
    [pending] holds the ids issued and not completed so far. *)
Fixpoint well_paired (pending : list Z) (ops : list op) : bool :=
  match ops with
  | [] => true
  | Issue k :: ops => well_paired (pending ++ [k]) ops
  | Complete k _ _ :: ops =>
      bool_decide (k ∈ pending) && well_paired (remove_first k pending) ops
  end.

(** What a handle settles with: one argument gives that value, any other
    number of arguments gives the ordered list of them; [isError] turns
    the resolution into a rejection. *)
Definition spec_settlement (isError : bool) (args : list value)
  : settlement :=
  let payload := match args with [v] => v | _ => VArr args end in
  if isError then Rejected payload else Resolved payload.

(** Settlements carried by the [Complete] operations for id [k], in
    order of arrival. *)
Definition completions (k : Z) (ops : list op) : list settlement :=
  omap (fun o => match o with
                 | Complete k' e args =>
                     if k' =? k then Some (spec_settlement e args) else None
                 | Issue _ => None
                 end) ops.

(** Handles returned by the [Issue] operations for id [k], in order. *)
Definition issued (k : Z) (outs : list (Z * handle)) : list handle :=
  omap (fun '(k', h) => if k' =? k then Some h else None) outs.

(** State of a promise that [outcome] describes: settled once, or still
    pending and never touched. *)
Definition settled_as (outcome : option settlement) : promise :=
  match outcome with
  | Some st => mkPromise st 1
  | None => mkPromise Pending 0
  end.

(** Pending calls name distinct promises, each still pending and never
    touched. *)
Definition consistent (s : state) : Prop :=
  NoDup (map target (_promises s)) /\
  Forall (fun p => heap s !! target p = Some (mkPromise Pending 0))
         (_promises s).

(** Handles of the pending calls with id [k], oldest first. *)
Definition pending_handles (k : Z) (s : state) : list handle :=
  issued k (map (fun p => (id p, target p)) (_promises s)).

(** The out-of-order scenario: ids 1, 2, 3 are issued and completed in
    the order 3, 1, 2. *)
Definition out_of_order : list op :=
  [ Issue 1; Issue 2; Issue 3;
    Complete 3 false [VStr "three"];
    Complete 1 true [VStr "one"; VNum 1];
    Complete 2 false [VNum 2] ].

(** Ids of the [Issue] operations, in order. *)
Definition issue_ids (ops : list op) : list Z :=
  omap (fun o => match o with Issue k => Some k | Complete _ _ _ => None end)
       ops.

End ArcBase.

(** ** [ArcInit]: command router and start-up sequence *)
Module ArcInit.

(** *** Collaborators and their observable effects *)

(** The [info] object of [window-state-info]. *)
Record InitConfig : Type := mkInitConfig {
  workspaceFile : option string;
  darkMode : bool;
  startPath : option string
}.

(** The empty object [{}]. *)
Definition emptyConfig : InitConfig := mkInitConfig None false None.

(** What [prefProxy.load()] resolves to. *)
Record Preferences : Type := mkPreferences {
  theme : option string;
  upgrades : list string
}.

(** Receiver of a method call: the element [this.app] or the [ArcInit]
    instance itself. *)
Inductive receiver : Type := App | This.

Inductive event : Type :=
| ConsoleLog (args : list value)
| ConsoleInfo (args : list value)
| ConsoleWarn (args : list value)
| ConsoleWarnError (e : Error)
| ConsoleError (e : Error)
| IpcSend (topic : string) (args : list value)
| Invoke (r : receiver) (method : string) (args : list value)
| AppSet (property : string) (v : value)
| WorkspaceObserve (file : option string)
| PrefsLoad
| ImportModule
| CreateApp (config : Preferences)
| AppendApp
| LoadTheme (theme : option string)
| ApplyUpgrades (upgrades : list string)
| SetLoadingInfo (text : string)
| DriveGetFile (fileId : option string)
| DispatchImport (data : value)
| PushState (hash : string)
| LoaderEnd.

(** States of the start-up sequence. *)
Inductive Stage : Type :=
| AwaitingConfig | ConfigReceived | Built | PathResolved | Ready.

(** How the collaborators outside [ArcInit] answer. *)
Record Env : Type := mkEnv {
  (* [prefProxy.load()], by number of the call *)
  prefs_load : nat -> result Preferences;
  (* [import('web-module://src/arc-electron.js')] *)
  import_module : result unit;
  (* [themeManager.loadTheme(theme)] *)
  load_theme : option string -> result unit;
  (* [new UpgradeHelper(cnf.upgrades).getUpgrades()] *)
  get_upgrades : list string -> option (list string);
  (* [inst.upgrade(upgrades)] *)
  run_upgrade : list string -> result unit;
  (* [driveBridge.getFile(fileId)]; [None] is [undefined] *)
  drive_getFile : option string -> result (option string);
  (* [JSON.parse(data)] *)
  json_parse : string -> result value;
  (* [document.querySelector('.loading-info')] finds a node *)
  loading_info_node : bool;
  (* [document.querySelector('.loader')] finds a node *)
  loader_node : bool;
  (* a handler method may throw *)
  handler_throws : receiver -> string -> list value -> option Error
}.

Record state : Type := mkState {
  trace : list event;
  (* [this.created] *)
  created : bool;
  (* [document.getElementById('app')] finds the element *)
  app_element : bool;
  (* [this.initConfig] *)
  initConfig : InitConfig;
  (* calls of [prefProxy.load()] so far *)
  pref_loads : nat;
  (* stages of the start-up sequence entered so far *)
  stages : list Stage
}.

(** State after the constructor, [listen()] and [requestState()]. *)
Definition init : state :=
  mkState [IpcSend "window-state-request" []] false false emptyConfig 0
          [AwaitingConfig].

(** *** Computations: state passing with exceptions *)

Definition M (A : Type) : Type := state -> result A * state.

Definition ret {A} (a : A) : M A := fun s => (Ok a, s).
Definition throw {A} (e : Error) : M A := fun s => (Throw e, s).
Definition bind {A B} (m : M A) (k : A -> M B) : M B :=
  fun s => match m s with
           | (Ok a, s') => k a s'
           | (Throw e, s') => (Throw e, s')
           end.
(** [try { body } catch (e) { handler }] *)
Definition try_catch {A} (body : M A) (handler : Error -> M A) : M A :=
  fun s => match body s with
           | (Ok a, s') => (Ok a, s')
           | (Throw e, s') => handler e s'
           end.

Notation "x <- c1 ;; c2" := (bind c1 (fun x => c2))
  (at level 100, c1 at next level, right associativity).
Notation "c1 ;; c2" := (bind c1 (fun _ => c2))
  (at level 100, right associativity).

Definition emit (ev : event) : M unit :=
  fun s => (Ok (),
            mkState (trace s ++ [ev]) (created s) (app_element s)
                    (initConfig s) (pref_loads s) (stages s)).
Definition enter (st : Stage) : M unit :=
  fun s => (Ok (),
            mkState (trace s) (created s) (app_element s)
                    (initConfig s) (pref_loads s) (stages s ++ [st])).
Definition set_initConfig (c : InitConfig) : M unit :=
  fun s => (Ok (),
            mkState (trace s) (created s) (app_element s) c
                    (pref_loads s) (stages s)).
Definition set_created : M unit :=
  fun s => (Ok (),
            mkState (trace s) true (app_element s) (initConfig s)
                    (pref_loads s) (stages s)).
Definition append_app : M unit :=
  fun s => (Ok (),
            mkState (trace s ++ [AppendApp]) (created s) true
                    (initConfig s) (pref_loads s) (stages s)).
Definition count_pref_load : M nat :=
  fun s => (Ok (pref_loads s),
            mkState (trace s ++ [PrefsLoad]) (created s) (app_element s)
                    (initConfig s) (S (pref_loads s)) (stages s)).
Definition get {A} (f : state -> A) : M A := fun s => (Ok (f s), s).
Definition lift {A} (r : result A) : M A := fun s => (r, s).

(** [switch (x) { case l: body; break; ... default: d }] *)
Fixpoint switch {A} (x : string) (cases : list (string * A)) (d : A) : A :=
  match cases with
  | [] => d
  | (l, body) :: cases => if String.eqb x l then body else switch x cases d
  end.

(** [String.prototype.split('/')] *)
Fixpoint split_slash (s : string) : list string :=
  match s with
  | EmptyString => [""]
  | String c r =>
      if Ascii.eqb c "/"%char then "" :: split_slash r
      else match split_slash r with
           | h :: t => String c h :: t
           | [] => [String c ""]
           end
  end.

Definition opt_value (o : option string) : value :=
  match o with Some s => VStr s | None => VUndefined end.

Section WithEnv.
Variable env : Env.

(** A handler runs: the call is recorded, and the handler may throw. *)
Definition invoke (r : receiver) (method : string) (args : list value)
  : M unit :=
  emit (Invoke r method args) ;;
  match handler_throws env r method args with
  | Some e => throw e
  | None => ret ()
  end.

(** [this.app.method(...)]: [this.app] is [null] while the element is
    not in the document. *)
Definition app_call (method : string) (args : list value) : M unit :=
  present <- get app_element ;;
  if present then invoke App method args
  else throw (TypeError "Cannot read properties of null").

(** [this.app.property = v] *)
Definition app_set (property : string) (v : value) : M unit :=
  present <- get app_element ;;
  if present then emit (AppSet property v)
  else throw (TypeError "Cannot set properties of null").

Definition prefProxy_load : M Preferences :=
  n <- count_pref_load ;;
  lift (prefs_load env n).

(** *** Command router *)

Definition command_cases (e : value) (args : list value)
  : list (string * M unit) :=
  [ ("show-settings", app_call "openSettings" []);
    ("about", app_call "openAbout" []);
    ("open-license", app_call "openLicense" []);
    ("import-data", app_call "openImport" []);
    ("export-data", app_call "openExport" []);
    ("open-saved", app_call "openSaved" []);
    ("open-history", app_call "openHistory" []);
    ("open-drive", app_call "openDrivePicker" []);
    ("open-messages", app_call "openInfoCenter" []);
    ("login-external-webservice", app_call "openWebUrl" []);
    ("open-cookie-manager", app_call "openCookieManager" []);
    ("open-hosts-editor", app_call "openHostRules" []);
    ("get-tabs-count", invoke This "sendTabsCount" [e; arg args 0]);
    ("activate-tab",
      invoke This "activateTab" [e; arg args 0; arg args 1]);
    ("get-request-data",
      invoke This "getRequestData" [e; arg args 0; arg args 1]);
    ("open-themes", app_call "openThemesPanel" []);
    ("open-requests-workspace", app_call "openWorkspace" []);
    ("open-web-socket", app_call "openWebSocket" []);
    ("popup-menu", invoke This "_toggleMenuWindow" []);
    ("process-external-file",
      invoke This "processExternalFile" [arg args 0]);
    ("open-onboarding", app_call "openOnboarding" []);
    ("open-workspace-details", app_call "openWorkspaceDetails" []);
    ("export-workspace", invoke This "exportWorkspace" []) ].

Definition commandHandler (e : value) (action : string)
           (args : list value) : M unit :=
  switch action (command_cases e args)
         (emit (ConsoleWarn [VStr "Unknown command"; VStr action;
                             VArr args])).

Definition request_cases (args : list value) : list (string * M unit) :=
  [ ("save", app_call "saveOpened" [VRecord [("source", VStr "shortcut")]]);
    ("save-as", app_call "saveOpened" []);
    ("new-tab", app_call "newRequestTab" []);
    ("send-current", app_call "sendCurrentTab" []);
    ("update-request",
      app_call "updateRequestTab" [arg args 0; arg args 1]);
    ("close-tab", app_call "closeActiveTab" []) ].

Definition execRequestAction (e : value) (action : string)
           (args : list value) : M unit :=
  switch action (request_cases args)
         (throw (newError ("Unrecognized action " +:+ action))).

(** *** Start-up sequence *)

Definition reportFatalError (err : Error) : M unit :=
  emit (ConsoleError err) ;;
  emit (IpcSend "fatal-error" [VStr (message err)]).

(** [_setupApp(app)] works on the element just created, not on
    [this.app]. *)
Definition _setupApp : M unit :=
  invoke App "initApplication" [] ;;
  invoke App "initTutorial" [].

Definition _createApp (config : Preferences) : M unit :=
  done <- get created ;;
  if done then ret ()
  else
    emit ImportModule ;;
    lift (import_module env) ;;
    emit (CreateApp config) ;;
    _setupApp ;;
    append_app ;;
    set_created.

Definition dark_theme : string :=
  "@advanced-rest-client/arc-electron-dark-theme".
Definition anypoint_theme : string :=
  "@advanced-rest-client/arc-electron-anypoint-theme".

Definition initApp : M unit :=
  config <- get initConfig ;;
  emit (WorkspaceObserve (workspaceFile config)) ;;
  cnf <- try_catch
           (cnf <- prefProxy_load ;;
            _createApp cnf ;;
            ret cnf)
           (fun e => reportFatalError e ;; throw e) ;;
  let cnf :=
    if darkMode config
    then mkPreferences (Some dark_theme) (upgrades cnf) else cnf in
  (if bool_decide (theme cnf = Some anypoint_theme)
   then app_set "compatibility" (VBool true) else ret ()) ;;
  try_catch
    (emit (LoadTheme (theme cnf)) ;; lift (load_theme env (theme cnf)))
    (fun e => emit (ConsoleError e)).

Definition upgradeApp : M unit :=
  cnf <- prefProxy_load ;;
  match get_upgrades env (upgrades cnf) with
  | None | Some [] => ret ()
  | Some ups =>
      emit (ConsoleInfo [VStr "Applying upgrades..."]) ;;
      emit (ApplyUpgrades ups) ;;
      lift (run_upgrade env ups)
  end.

(** [!data] for a string or [undefined]. *)
Definition falsy (data : option string) : bool :=
  match data with
  | None | Some "" => true
  | Some _ => false
  end.

Definition handleGoogleDriveAction (action fileId : option string)
  : M unit :=
  if negb (bool_decide (action = Some "open")) then
    emit (ConsoleWarn
            [VStr "Currently only open action for Google Drive is supported."])
  else
    (if loading_info_node env
     then emit (SetLoadingInfo "Loading file from Google Drive")
     else throw (TypeError "Cannot set properties of null")) ;;
    emit (DriveGetFile fileId) ;;
    data <- lift (drive_getFile env fileId) ;;
    if falsy data then
      let e := newError "Google drive did not return any data." in
      app_call "notifyError" [VStr (message e)] ;;
      throw e
    else
      parsed <- try_catch
                  (lift (json_parse env (default "" data)))
                  (fun cause =>
                     emit (ConsoleWarnError cause) ;;
                     app_call "notifyError" [VStr (message cause)] ;;
                     throw (newError "Unable to parse received data.")) ;;
      emit (DispatchImport parsed).

Definition handleDefaultProtocolActon (args : list string) : M unit :=
  let source := args !! 0%nat in
  let action := args !! 1%nat in
  let id := args !! 2%nat in
  if bool_decide (source = Some "google-drive")
  then handleGoogleDriveAction action id
  else emit (ConsoleWarn [VStr "Unknown protocol action. ";
                          VArr (map VStr args)]).

Definition processInitialPath : M unit :=
  config <- get initConfig ;;
  if falsy (startPath config) then ret ()
  else
    let path := default "" (startPath config) in
    let parts := split_slash path in
    if bool_decide (parts !! 0%nat = Some "file-protocol-action")
    then handleDefaultProtocolActon (drop 1 parts)
    else emit (PushState ("#" +:+ path)).

Definition removeLoader : M unit :=
  if loader_node env then emit LoaderEnd else ret ().

(** Handler of [window-state-info]; [info] is [None] when the message
    carries no object.  [enter] marks the stage the sequence is in from
    that point on. *)
Definition _stateInfoHandler (info : option InitConfig) : M unit :=
  let info := default emptyConfig info in
  set_initConfig info ;;
  enter ConfigReceived ;;
  initApp ;;
  enter Built ;;
  upgradeApp ;;
  enter PathResolved ;;
  processInitialPath ;;
  enter Ready ;;
  removeLoader ;;
  emit (ConsoleLog [VStr "Application window is now ready."]).

(** [_stateInfoHandler] up to the point where the start path is
    inspected, and its steps once the start path is dealt with. *)
Definition before_start_path (info : option InitConfig) : M unit :=
  let info := default emptyConfig info in
  set_initConfig info ;;
  enter ConfigReceived ;;
  initApp ;;
  enter Built ;;
  upgradeApp ;;
  enter PathResolved.

Definition ready_events : list event :=
  (if loader_node env then [LoaderEnd] else [])
    ++ [ConsoleLog [VStr "Application window is now ready."]].

End WithEnv.

(** *** The vocabularies as the specification lists them *)

Definition command_vocabulary : list string :=
  [ "show-settings"; "about"; "open-license"; "import-data"; "export-data";
    "open-saved"; "open-history"; "open-drive"; "open-messages";
    "login-external-webservice"; "open-cookie-manager"; "open-hosts-editor";
    "get-tabs-count"; "activate-tab"; "get-request-data"; "open-themes";
    "open-requests-workspace"; "open-web-socket"; "popup-menu";
    "process-external-file"; "open-onboarding"; "open-workspace-details";
    "export-workspace" ].

Definition request_vocabulary : list string :=
  [ "save"; "save-as"; "new-tab"; "send-current"; "update-request";
    "close-tab" ].

(** Route of a command: the handler, whether the IPC event object is
    passed first, and how many of the trailing arguments follow. *)
Record route : Type := mkRoute {
  on : receiver;
  handler : string;
  passes_event : bool;
  arity : nat
}.

Definition command_routes : list (string * route) :=
  [ ("show-settings", mkRoute App "openSettings" false 0);
    ("about", mkRoute App "openAbout" false 0);
    ("open-license", mkRoute App "openLicense" false 0);
    ("import-data", mkRoute App "openImport" false 0);
    ("export-data", mkRoute App "openExport" false 0);
    ("open-saved", mkRoute App "openSaved" false 0);
    ("open-history", mkRoute App "openHistory" false 0);
    ("open-drive", mkRoute App "openDrivePicker" false 0);
    ("open-messages", mkRoute App "openInfoCenter" false 0);
    ("login-external-webservice", mkRoute App "openWebUrl" false 0);
    ("open-cookie-manager", mkRoute App "openCookieManager" false 0);
    ("open-hosts-editor", mkRoute App "openHostRules" false 0);
    ("get-tabs-count", mkRoute This "sendTabsCount" true 1);
    ("activate-tab", mkRoute This "activateTab" true 2);
    ("get-request-data", mkRoute This "getRequestData" true 2);
    ("open-themes", mkRoute App "openThemesPanel" false 0);
    ("open-requests-workspace", mkRoute App "openWorkspace" false 0);
    ("open-web-socket", mkRoute App "openWebSocket" false 0);
    ("popup-menu", mkRoute This "_toggleMenuWindow" false 0);
    ("process-external-file", mkRoute This "processExternalFile" false 1);
    ("open-onboarding", mkRoute App "openOnboarding" false 0);
    ("open-workspace-details", mkRoute App "openWorkspaceDetails" false 0);
    ("export-workspace", mkRoute This "exportWorkspace" false 0) ].

(** Arguments a route hands to its handler: the event object if the
    route passes it, then the first [arity] trailing arguments in order,
    [undefined] where the caller gave none. *)
Definition forwarded (r : route) (e : value) (args : list value)
  : list value :=
  (if passes_event r then [e] else [])
    ++ map (arg args) (seq 0 (arity r)).

(** State [s] with [ev] appended to its trace. *)
Definition logged (ev : list event) (s : state) : state :=
  mkState (trace s ++ ev) (created s) (app_element s) (initConfig s)
          (pref_loads s) (stages s).

(** A state in which the application element is in the document. *)
Definition window_ready : state :=
  mkState [] true true emptyConfig 2 [AwaitingConfig; ConfigReceived; Built;
                                       PathResolved; Ready].

(** Collaborators that all succeed: preferences without theme or
    upgrades, a Drive that returns [data], a parser that accepts only
    ["{}"]. *)
Definition calm_env (data : option string) : Env :=
  mkEnv (fun _ => Ok (mkPreferences None []))
        (Ok ())
        (fun _ => Ok ())
        (fun _ => None)
        (fun _ => Ok ())
        (fun _ => Ok data)
        (fun s => if String.eqb s "{}" then Ok (VRecord [])
                  else Throw (mkError "SyntaxError" "Unexpected token"))
        true true
        (fun _ _ _ => None).

(** A start path with a deep-link action the application does not
    know, and one that opens a Drive file. *)
Definition unknown_action_info : option InitConfig :=
  Some (mkInitConfig None false
          (Some "file-protocol-action/dropbox/open/abc123")).
Definition drive_open_info : option InitConfig :=
  Some (mkInitConfig None false
          (Some "file-protocol-action/google-drive/open/abc123")).

(** The failures inside the Drive file-open handler as the specification
    names them, each with the error it ends in: the Drive call fails with
    [e]; Drive returns no data; the data cannot be parsed. *)
Inductive drive_open_failure (env : Env) (fileId : option string)
  : Error -> Prop :=
| drive_call_fails e :
    drive_getFile env fileId = Throw e ->
    drive_open_failure env fileId e
| drive_no_data data :
    drive_getFile env fileId = Ok data -> falsy data = true ->
    drive_open_failure env fileId
      (newError "Google drive did not return any data.")
| drive_data_unparsable data cause :
    drive_getFile env fileId = Ok (Some data) -> data <> "" ->
    json_parse env data = Throw cause ->
    drive_open_failure env fileId
      (newError "Unable to parse received data.").

(** Collaborators as [calm_env], with a Drive whose call fails. *)
Definition failing_drive_env (e : Error) : Env :=
  mkEnv (fun _ => Ok (mkPreferences None []))
        (Ok ())
        (fun _ => Ok ())
        (fun _ => None)
        (fun _ => Ok ())
        (fun _ => Throw e)
        (fun _ => Ok VNull)
        true true
        (fun _ _ _ => None).

(** Collaborators of which the preference store fails. *)
Definition failing_prefs_env (e : Error) : Env :=
  mkEnv (fun _ => Throw e)
        (Ok ())
        (fun _ => Ok ())
        (fun _ => None)
        (fun _ => Ok ())
        (fun _ => Ok None)
        (fun _ => Ok VNull)
        true true
        (fun _ _ _ => None).

End ArcInit.

(** ** [ArcInit]: update events, menu state, remote-call replies and
       external files *)
Module ArcWindow.

(** [if (v)]: what JavaScript takes for true. *)
Definition truthy (v : value) : bool :=
  match v with
  | VUndefined | VNull => false
  | VBool b => b
  | VNum n => negb (n =? 0)
  | VStr s => negb (String.eqb s "")
  | VArr _ | VRecord _ | VObject _ => true
  end.

(** The [arc-electron] element as [ArcInit] reads and writes it. *)
Record AppElement : Type := mkApp {
  updateState : option string;
  hasAppUpdate : bool;
  (* [app.menuConfig]: [None] is [undefined]; an absent key reads
     [undefined] *)
  menuConfig : option (gmap string bool);
  (* [app.workspace.selected] *)
  selected : value;
  (* what [app.getTabsCount()] returns *)
  tabsCount : value;
  (* [app.workspace.activeRequests[tabId]] *)
  activeRequests : value -> value;
  (* calls of [app.requestUpdate()] *)
  requestUpdates : nat;
  (* messages given to [app.notifyError] *)
  notifications : list string
}.

Inductive console_entry : Type :=
| Log (args : list value)
| Warn (args : list value)
| Failure (e : Error).

Record window : Type := mkWindow {
  (* [document.getElementById('app')]; [None] is [null] *)
  app : option AppElement;
  console : list console_entry;
  (* messages of [e.sender.send(topic, ...args)] *)
  sent : list (string * list value);
  (* [this.__importPreprocessor] is set *)
  __importPreprocessor : bool;
  (* instances of [ImportFilePrePprocessor] created *)
  preprocessors : nat
}.

Definition set_app (a : AppElement) (w : window) : window :=
  mkWindow (Some a) (console w) (sent w) (__importPreprocessor w)
           (preprocessors w).
Definition write_console (c : console_entry) (w : window) : window :=
  mkWindow (app w) (console w ++ [c]) (sent w) (__importPreprocessor w)
           (preprocessors w).
Definition send (topic : string) (args : list value) (w : window) : window :=
  mkWindow (app w) (console w) (sent w ++ [(topic, args)])
           (__importPreprocessor w) (preprocessors w).

Definition set_updateState (v : string) (a : AppElement) : AppElement :=
  mkApp (Some v) (hasAppUpdate a) (menuConfig a) (selected a) (tabsCount a)
        (activeRequests a) (requestUpdates a) (notifications a).
Definition set_hasAppUpdate (v : bool) (a : AppElement) : AppElement :=
  mkApp (updateState a) v (menuConfig a) (selected a) (tabsCount a)
        (activeRequests a) (requestUpdates a) (notifications a).
Definition set_menuConfig (v : gmap string bool) (a : AppElement)
  : AppElement :=
  mkApp (updateState a) (hasAppUpdate a) (Some v) (selected a) (tabsCount a)
        (activeRequests a) (requestUpdates a) (notifications a).
Definition set_selected (v : value) (a : AppElement) : AppElement :=
  mkApp (updateState a) (hasAppUpdate a) (menuConfig a) v (tabsCount a)
        (activeRequests a) (requestUpdates a) (notifications a).
Definition requestUpdate (a : AppElement) : AppElement :=
  mkApp (updateState a) (hasAppUpdate a) (menuConfig a) (selected a)
        (tabsCount a) (activeRequests a) (S (requestUpdates a))
        (notifications a).
Definition notifyError (msg : string) (a : AppElement) : AppElement :=
  mkApp (updateState a) (hasAppUpdate a) (menuConfig a) (selected a)
        (tabsCount a) (activeRequests a) (requestUpdates a)
        (notifications a ++ [msg]).

Definition null_app : Error := TypeError "Cannot read properties of null".

(** *** Auto-update events *)

Definition updateEventHandler (type : string) (args : value) (w : window)
  : window :=
  match app w with
  | None => w
  | Some a =>
      let a := set_updateState type a in
      let w := if truthy args then write_console (Log [VStr type; args]) w
               else w in
      let a := if String.eqb type "update-downloaded"
               then set_hasAppUpdate true a else a in
      set_app a w
  end.

(** *** Menu state *)

(** [if (!app.menuConfig) { app.menuConfig = {}; }] followed by a read of
    the object. *)
Definition menu_of (a : AppElement) : gmap string bool :=
  default ∅ (menuConfig a).

(** [app.menuConfig[key]] as a condition: an absent key is [undefined]. *)
Definition flag (key : string) (cfg : gmap string bool) : bool :=
  default false (cfg !! key).

Definition _toggleMenuWindow (w : window) : result unit * window :=
  match app w with
  | None => (Throw null_app, w)
  | Some a =>
      let cfg := menu_of a in
      let state := negb (flag "menuDisabled" cfg) in
      let a := set_menuConfig (<["menuDisabled" := state]> cfg) a in
      (Ok (), set_app (requestUpdate a) w)
  end.

(** The [switch] of [_menuToggleOption]: the key of a menu type. *)
Definition menu_key (type : string) : option string :=
  ArcInit.switch type
    [ ("history-menu", Some "hideHistory");
      ("saved-menu", Some "hideSaved");
      ("projects-menu", Some "hideProjects");
      ("rest-api-menu", Some "hideApis");
      ("*", Some "menuDisabled") ]
    None.

Definition _menuToggleOption (type : string) (value : bool) (w : window)
  : result unit * window :=
  match app w with
  | None => (Throw null_app, w)
  | Some a =>
      let cfg := menu_of a in
      let a := set_menuConfig cfg a in
      match menu_key type with
      | None =>
          (Ok (), write_console (Warn [VStr "Unknown menu state"])
                                (set_app a w))
      | Some key =>
          let a := set_menuConfig (<[key := value]> cfg) a in
          (Ok (), set_app (requestUpdate a) w)
      end
  end.

Definition _popupMenuOpened (type : string) (w : window)
  : result unit * window :=
  _menuToggleOption type true w.

Definition _popupMenuClosed (type : string) (w : window)
  : result unit * window :=
  _menuToggleOption type false w.

(** *** Remote-call handlers *)

Definition sendTabsCount (callId : value) (w : window)
  : result unit * window :=
  match app w with
  | None => (Throw null_app, w)
  | Some a =>
      let cnt := tabsCount a in
      (Ok (), send "current-tabs-count" [callId; VBool false; cnt] w)
  end.

Definition activateTab (callId tabId : value) (w : window)
  : result unit * window :=
  match app w with
  | None => (Throw null_app, w)
  | Some a =>
      let w := set_app (set_selected tabId a) w in
      (Ok (), send "tab-activated" [callId; VBool false] w)
  end.

Definition getRequestData (callId tabId : value) (w : window)
  : result unit * window :=
  match app w with
  | None => (Throw null_app, w)
  | Some a =>
      let request := activeRequests a tabId in
      (Ok (), send "request-data" [callId; VBool false; request] w)
  end.

(** A reply as the issuing side's [_ipcPromiseCallback(e, id, isError,
    ...args)] receives it: the arguments after the topic, in order.  The
    correlator's ids are integers; a reply whose id is no number is none
    of its calls. *)
Definition deliver (args : list value) (s : ArcBase.state)
  : option (result unit * ArcBase.state) :=
  match args with
  | VNum k :: rest =>
      Some (ArcBase._ipcPromiseCallback k (truthy (arg rest 0)) (drop 1 rest)
                                        s)
  | _ => None
  end.

(** *** External files *)

(** The getter [importPreprocessor]: the instance is created on first
    use. *)
Definition importPreprocessor (w : window) : window :=
  if __importPreprocessor w then w
  else mkWindow (app w) (console w) (sent w) true (S (preprocessors w)).

(** [processFile] is [ImportFilePrePprocessor.processFile]. *)
Definition processExternalFile (processFile : value -> result value)
           (filePath : value) (w : window) : result value * window :=
  let w := importPreprocessor w in
  match processFile filePath with
  | Ok v => (Ok v, w)
  | Throw cause =>
      match app w with
      | None => (Throw null_app, w)
      | Some a =>
          let w := set_app (notifyError (message cause) a) w in
          (Ok VUndefined, write_console (Failure cause) w)
      end
  end.

(** A series of update events, of files, in order. *)
Definition update_events (evs : list (string * value)) (w : window)
  : window :=
  foldl (fun w ev => updateEventHandler (fst ev) (snd ev) w) w evs.

Definition process_files (processFile : value -> result value)
           (files : list value) (w : window) : window :=
  foldl (fun w f => snd (processExternalFile processFile f w)) w files.

(** An application element as the page starts with, and the window that
    holds it. *)
Definition fresh_app : AppElement :=
  mkApp None false None VUndefined (VNum 3)
        (fun tabId => match tabId with
                      | VNum 0 => VRecord [("url", VStr "https://api.test")]
                      | _ => VUndefined
                      end)
        0 [].
Definition fresh_window : window := mkWindow (Some fresh_app) [] [] false 0.
Definition empty_window : window := mkWindow None [] [] false 0.

End ArcWindow.

(** ** Further scenarios of the correlator and of the start-up sequence *)
Module Scenarios.

(** Ids left pending by a sequence of operations that starts with
    [pending], oldest first. *)
Fixpoint pending_after (pending : list Z) (ops : list ArcBase.op)
  : list Z :=
  match ops with
  | [] => pending
  | ArcBase.Issue k :: ops => pending_after (pending ++ [k]) ops
  | ArcBase.Complete k _ _ :: ops =>
      pending_after (ArcBase.remove_first k pending) ops
  end.

(** [_stateInfoHandler] up to the upgrade check. *)
Definition before_upgrade (env : ArcInit.Env)
           (info : option ArcInit.InitConfig) : ArcInit.M unit :=
  ArcInit.bind
    (ArcInit.set_initConfig (default ArcInit.emptyConfig info))
    (fun _ => ArcInit.bind (ArcInit.enter ArcInit.ConfigReceived)
    (fun _ => ArcInit.bind (ArcInit.initApp env)
    (fun _ => ArcInit.enter ArcInit.Built))).

(** The theme [initApp] loads: the dark theme in dark mode, the theme of
    the preferences otherwise. *)
Definition effective_theme (s : ArcInit.state) (cnf : ArcInit.Preferences)
  : option string :=
  if ArcInit.darkMode (ArcInit.initConfig s)
  then Some ArcInit.dark_theme else ArcInit.theme cnf.

(** A window opened in dark mode whose preferences name the anypoint
    theme. *)
Definition dark_window : ArcInit.state :=
  ArcInit.mkState [] false false (ArcInit.mkInitConfig None true None) 0
                  [ArcInit.AwaitingConfig; ArcInit.ConfigReceived].
Definition anypoint_preferences : ArcInit.Preferences :=
  ArcInit.mkPreferences (Some ArcInit.anypoint_theme) [].

(** The protocol action of a start path. *)
Definition protocol_path (source action id : string) : string :=
  "file-protocol-action/" +:+ source +:+ "/" +:+ action +:+ "/" +:+ id.

(** No slash in the string. *)
Fixpoint slash_free (s : string) : bool :=
  match s with
  | EmptyString => true
  | String c r => negb (Ascii.eqb c "/"%char) && slash_free r
  end.

(** Collaborators as [calm_env], with preferences [cnf] and a theme loader
    that answers [theme_result]. *)
Definition themed_env (cnf : ArcInit.Preferences) (theme_result : result unit)
  : ArcInit.Env :=
  ArcInit.mkEnv (fun _ => Ok cnf)
                (Ok ())
                (fun _ => theme_result)
                (fun _ => None)
                (fun _ => Ok ())
                (fun _ => Ok None)
                (fun _ => Ok VNull)
                true true
                (fun _ _ _ => None).

(** Collaborators of which the module import fails. *)
Definition failing_import_env (e : Error) : ArcInit.Env :=
  ArcInit.mkEnv (fun _ => Ok (ArcInit.mkPreferences None []))
                (Throw e)
                (fun _ => Ok ())
                (fun _ => None)
                (fun _ => Ok ())
                (fun _ => Ok None)
                (fun _ => Ok VNull)
                true true
                (fun _ _ _ => None).

(** Collaborators of which the upgrade fails. *)
Definition failing_upgrade_env (e : Error) : ArcInit.Env :=
  ArcInit.mkEnv (fun _ => Ok (ArcInit.mkPreferences None ["v15"]))
                (Ok ())
                (fun _ => Ok ())
                (fun ups => Some ups)
                (fun _ => Throw e)
                (fun _ => Ok None)
                (fun _ => Ok VNull)
                true true
                (fun _ _ _ => None).

End Scenarios.

(** ** Facts about the array primitives *)
Module JsFacts.

Lemma findIndex_from_none {A} (p : A -> bool) l i :
  Forall (fun x => p x = false) l -> findIndex_from p l i = -1.
Proof.
  intros H. revert i. induction H as [|x r Hx _ IH]; intros i; simpl.
  - reflexivity.
  - rewrite Hx. apply IH.
Qed.

Lemma findIndex_from_first {A} (p : A -> bool) l1 x l2 i :
  Forall (fun y => p y = false) l1 -> p x = true ->
  findIndex_from p (l1 ++ x :: l2) i = i + Z.of_nat (length l1).
Proof.
  intros H Hx. revert i. induction H as [|y r Hy _ IH]; intros i; simpl.
  - rewrite Hx. lia.
  - rewrite Hy, IH. lia.
Qed.

Lemma findIndex_none {A} (p : A -> bool) l :
  Forall (fun x => p x = false) l -> findIndex p l = -1.
Proof. apply findIndex_from_none. Qed.

Lemma findIndex_first {A} (p : A -> bool) l1 x l2 :
  Forall (fun y => p y = false) l1 -> p x = true ->
  findIndex p (l1 ++ x :: l2) = Z.of_nat (length l1).
Proof.
  intros H Hx. unfold findIndex. rewrite findIndex_from_first by done. lia.
Qed.

(** Either no element satisfies the predicate, or the list splits at the
    first one that does. *)
Lemma first_match_cases {A} (p : A -> bool) (l : list A) :
  Forall (fun x => p x = false) l \/
  exists l1 x l2, l = l1 ++ x :: l2 /\
                  Forall (fun y => p y = false) l1 /\ p x = true.
Proof.
  induction l as [|a l IH].
  - left. constructor.
  - destruct (p a) eqn:Ha.
    + right. exists [], a, l. repeat split; [constructor | done].
    + destruct IH as [IH | (l1 & x & l2 & -> & H1 & Hx)].
      * left. by constructor.
      * right. exists (a :: l1), x, l2. repeat split; [by constructor | done].
Qed.

Lemma at_index_middle {A} (l1 : list A) x l2 :
  at_index (l1 ++ x :: l2) (Z.of_nat (length l1)) = Some x.
Proof.
  unfold at_index.
  destruct (Z.ltb_spec (Z.of_nat (length l1)) 0); [lia|].
  rewrite Nat2Z.id. by rewrite list_lookup_middle.
Qed.

Lemma splice_middle {A} (l1 : list A) x l2 :
  splice (Z.of_nat (length l1)) 1 (l1 ++ x :: l2) = l1 ++ l2.
Proof.
  unfold splice. rewrite length_app. simpl length.
  destruct (Z.ltb_spec (Z.of_nat (length l1)) 0); [lia|].
  replace (Z.to_nat (Z.min (Z.of_nat (length l1))
             (Z.of_nat (length l1 + S (length l2))))) with (length l1) by lia.
  replace (Z.to_nat _) with (S (length l1)) by lia.
  rewrite take_app_length.
  replace (S (length l1)) with (length l1 + 1)%nat by lia.
  rewrite <- drop_drop, drop_app_length. reflexivity.
Qed.

End JsFacts.

(** ** The call correlator *)
Module Correlator.
Import ArcBase JsFacts.

Lemma consistent_init : consistent init.
Proof. split; simpl; constructor. Qed.

Lemma id_mismatch_iff (l : list PendingCall) k :
  Forall (fun p => (id p =? k) = false) l <-> k ∉ map id l.
Proof.
  induction l as [|p l IH]; simpl.
  - split; [intros _; apply not_elem_of_nil | constructor].
  - rewrite Forall_cons, not_elem_of_cons, IH, Z.eqb_neq.
    split; intros [? ?]; split; congruence.
Qed.

(** A response for an id without pending call: the callback throws. *)
Lemma callback_missing k e args s :
  k ∉ map id (_promises s) ->
  _ipcPromiseCallback k e args s =
    (Throw (newError "Promise not found"),
     write_log (LogNotFound k) (write_log (LogReceived k e args) s)).
Proof.
  intros H. apply id_mismatch_iff in H.
  unfold _ipcPromiseCallback. cbn [_promises write_log].
  by rewrite findIndex_none.
Qed.

Lemma settlement_branches (e : bool) args (h : handle) s :
  (if e
   then (if Z.of_nat (length args) =? 1
         then (Ok (), settle h (Rejected (arg args 0)) s)
         else (Ok (), settle h (Rejected (VArr args)) s))
   else (if Z.of_nat (length args) =? 1
         then (Ok (), settle h (Resolved (arg args 0)) s)
         else (Ok (), settle h (Resolved (VArr args)) s)))
  = (Ok (), settle h (spec_settlement e args) s).
Proof.
  unfold spec_settlement.
  destruct args as [|v [|w args]]; destruct e; try reflexivity;
    cbn [length];
    (destruct (Z.eqb_spec (Z.of_nat (S (S (length args)))) 1);
     [lia | reflexivity]).
Qed.

(** A response for a pending id: the oldest pending call with that id is
    removed and its promise settled. *)
Lemma callback_found k (e : bool) args s l1 p l2 :
  _promises s = l1 ++ p :: l2 ->
  k ∉ map id l1 -> id p = k ->
  _ipcPromiseCallback k e args s =
    (Ok (),
     settle (target p) (spec_settlement e args)
       (write_log (if e then LogRejecting else LogResolving)
          (set_promises (l1 ++ l2)
             (write_log (LogReceived k e args) s)))).
Proof.
  intros Hl H1 Hp. apply id_mismatch_iff in H1.
  unfold _ipcPromiseCallback. cbn [_promises write_log]. rewrite Hl.
  rewrite findIndex_first by (done || by apply Z.eqb_eq).
  destruct (Z.eqb_spec (Z.of_nat (length l1)) (-1)); [lia|].
  rewrite at_index_middle, splice_middle.
  rewrite <- settlement_branches. by destruct e.
Qed.

Lemma settle_pending h outcome s :
  heap s !! h = Some (mkPromise Pending 0) ->
  heap (settle h outcome s) = <[h := mkPromise outcome 1]> (heap s).
Proof. intros H. unfold settle. by rewrite H. Qed.

Lemma settle_promises h outcome s :
  _promises (settle h outcome s) = _promises s.
Proof. unfold settle. by destruct (heap s !! h). Qed.

Lemma issued_app k l1 l2 :
  issued k (l1 ++ l2) = issued k l1 ++ issued k l2.
Proof. apply omap_app. Qed.

Lemma issued_skip k (l : list PendingCall) :
  k ∉ map id l -> issued k (map (fun p => (id p, target p)) l) = [].
Proof.
  induction l as [|p l IH]; simpl; [done|].
  rewrite not_elem_of_cons. intros [Hne Hl].
  destruct (Z.eqb_spec (id p) k); [congruence | by apply IH].
Qed.

Lemma elem_of_issued k h (l : list PendingCall) :
  h ∈ issued k (map (fun p => (id p, target p)) l) -> h ∈ map target l.
Proof.
  induction l as [|p l IH]; simpl; [done|].
  destruct (id p =? k); rewrite ?elem_of_cons; tauto.
Qed.

Lemma remove_first_split (l1 : list PendingCall) p l2 :
  (id p) ∉ (map id l1) ->
  remove_first (id p) (map id (l1 ++ p :: l2)) = map id (l1 ++ l2).
Proof.
  induction l1 as [|q l1 IH]; simpl.
  - intros _. by rewrite Z.eqb_refl.
  - rewrite not_elem_of_cons. intros [Hne Hl].
    destruct (Z.eqb_spec (id q) (id p)); [congruence|]. by rewrite IH.
Qed.

(** A pending id splits the pending list at its oldest call. *)
Lemma pending_split k (l : list PendingCall) :
  k ∈ map id l ->
  exists l1 p l2, l = l1 ++ p :: l2 /\ (k ∉ map id l1) /\ id p = k.
Proof.
  intros Hin.
  destruct (first_match_cases (fun p => id p =? k) l)
    as [Hnone | (l1 & p & l2 & -> & H1 & Hp)].
  - apply id_mismatch_iff in Hnone. contradiction.
  - exists l1, p, l2. split; [done|]. split.
    + by apply id_mismatch_iff.
    + by apply Z.eqb_eq.
Qed.

Lemma consistent_target_lt s p :
  consistent s -> p ∈ _promises s -> (target p < length (heap s))%nat.
Proof.
  intros [_ Hall] Hp. rewrite Forall_forall in Hall.
  apply (lookup_lt_Some _ _ _ (Hall p Hp)).
Qed.

Lemma consistent_appendPromise k s :
  consistent s -> consistent (snd (appendPromise k s)).
Proof.
  intros Hs. pose proof Hs as [Hnd Hall]. split; simpl.
  - rewrite map_app. simpl. apply NoDup_app. split; [done|]. split.
    + intros h Hh Hnew. apply list_elem_of_singleton in Hnew as ->.
      apply list_elem_of_fmap in Hh as (p & Hp & Hin).
      pose proof (consistent_target_lt s p Hs Hin). lia.
    + apply NoDup_singleton.
  - apply Forall_app. split.
    + eapply Forall_impl; [exact Hall|]. intros p Hp. simpl in Hp.
      by apply lookup_app_l_Some.
    + constructor; [|constructor]. simpl.
      by rewrite list_lookup_middle.
Qed.

Lemma consistent_complete s l1 p l2 outcome s1 :
  consistent s -> _promises s = l1 ++ p :: l2 ->
  _promises s1 = l1 ++ l2 ->
  heap s1 = <[target p := mkPromise outcome 1]> (heap s) ->
  consistent s1.
Proof.
  intros [Hnd Hall] Hl Hl1 Hh. rewrite Hl in Hnd, Hall.
  rewrite map_app in Hnd. simpl in Hnd.
  apply NoDup_app in Hnd as (Hnd1 & Hdisj & Hnd2).
  apply NoDup_cons in Hnd2 as [Hp2 Hnd2].
  apply Forall_app in Hall as [Hall1 Hall2].
  apply Forall_cons in Hall2 as [_ Hall2].
  split; rewrite Hl1.
  - rewrite map_app. apply NoDup_app. repeat split; [done| |done].
    intros h Hh1 Hh2. apply (Hdisj h Hh1). by right.
  - rewrite Hh. apply Forall_app. split.
    + rewrite Forall_forall in Hall1 |- *. intros q Hq.
      rewrite list_lookup_insert_ne; [by apply Hall1|].
      intros Heq. apply (Hdisj (target q)).
      * apply list_elem_of_fmap. by exists q.
      * rewrite <- Heq. by left.
    + rewrite Forall_forall in Hall2 |- *. intros q Hq.
      rewrite list_lookup_insert_ne; [by apply Hall2|].
      intros Heq. apply Hp2. rewrite Heq.
      apply list_elem_of_fmap. by exists q.
Qed.

Lemma run_Issue k ops s :
  run (Issue k :: ops) s =
    match run ops (snd (appendPromise k s)) with
    | (Ok outs, s') => (Ok ((k, length (heap s)) :: outs), s')
    | (Throw e, s') => (Throw e, s')
    end.
Proof. reflexivity. Qed.

(** The correlation invariant along a run, from any consistent state:
    the run does not throw; promises that are neither pending at the start
    nor created by the run are left alone; and for every id the calls
    pending at the start followed by the calls issued during the run are
    settled, oldest first, by the completions carrying that id. *)
Lemma run_correlates ops : forall s,
  consistent s ->
  well_paired (map id (_promises s)) ops = true ->
  exists outs s',
    run ops s = (Ok outs, s') /\
    map fst outs = issue_ids ops /\
    Forall (fun h => (length (heap s) <= h)%nat) (map snd outs) /\
    NoDup (map snd outs) /\
    (forall h, h ∉ map target (_promises s) ->
               (h < length (heap s))%nat -> heap s' !! h = heap s !! h) /\
    (forall k j h,
        (pending_handles k s ++ issued k outs) !! j = Some h ->
        heap s' !! h = Some (settled_as (completions k ops !! j))).
Proof.
  induction ops as [|o ops IH]; intros s Hs Hwp.
  - exists [], s. simpl.
    split; [done|]. split; [done|]. split; [constructor|].
    split; [constructor|]. split; [done|].
    intros k j h. rewrite app_nil_r. intros Hj.
    unfold completions. simpl.
    destruct Hs as [_ Hall]. rewrite Forall_forall in Hall.
    apply list_elem_of_lookup_2, elem_of_issued in Hj.
    apply list_elem_of_fmap in Hj as (p & -> & Hp). by apply Hall.
  - destruct o as [k0 | k0 e args].
    + (* Issue *)
      simpl in Hwp.
      pose proof (consistent_appendPromise k0 s Hs) as Hs1.
      set (s1 := snd (appendPromise k0 s)) in *.
      assert (Hp1 : _promises s1 =
                    _promises s ++ [mkPendingCall k0 (length (heap s))])
        by reflexivity.
      assert (Hh1 : heap s1 = heap s ++ [mkPromise Pending 0])
        by reflexivity.
      destruct (IH s1 Hs1) as (outs & s' & Hrun & Hids & Hfresh & Hnd
                               & Hkeep & Hsettle).
      { rewrite Hp1, map_app. exact Hwp. }
      exists ((k0, length (heap s)) :: outs), s'.
      rewrite Hh1, length_app in Hfresh. simpl in Hfresh.
      split; [|split; [|split; [|split; [|split]]]].
      * rewrite run_Issue. fold s1. by rewrite Hrun.
      * simpl. by rewrite Hids.
      * simpl. constructor; [lia|].
        eapply Forall_impl; [exact Hfresh|]. simpl. lia.
      * simpl. apply NoDup_cons. split; [|done].
        intros Hin. rewrite Forall_forall in Hfresh.
        specialize (Hfresh _ Hin). lia.
      * intros h Hh Hlt. rewrite Hkeep.
        -- rewrite Hh1. by rewrite lookup_app_l.
        -- rewrite Hp1, map_app, elem_of_app. simpl.
           rewrite list_elem_of_singleton. intros [?|?]; [done|lia].
        -- rewrite Hh1, length_app. simpl. lia.
      * intros k j h Hj. simpl completions. apply Hsettle.
        unfold pending_handles in *. rewrite Hp1, map_app, issued_app.
        simpl in *. rewrite <- app_assoc.
        destruct (k0 =? k); exact Hj.
    + (* Complete *)
      simpl in Hwp. apply andb_true_iff in Hwp as [Hin Hwp].
      apply bool_decide_eq_true in Hin.
      destruct (pending_split k0 _ Hin) as (l1 & p & l2 & Hl & Hl1 & Hp).
      pose proof (callback_found k0 e args s l1 p l2 Hl Hl1 Hp) as Hcb.
      set (s1 := settle (target p) (spec_settlement e args) _) in Hcb.
      assert (Hpend : heap s !! target p = Some (mkPromise Pending 0)).
      { destruct Hs as [_ Hall]. rewrite Forall_forall in Hall.
        apply Hall. rewrite Hl. apply elem_of_app. right. by left. }
      assert (Hp1 : _promises s1 = l1 ++ l2)
        by (unfold s1; by rewrite settle_promises).
      assert (Hh1 : heap s1 =
                    <[target p := mkPromise (spec_settlement e args) 1]>
                      (heap s))
        by (unfold s1; by rewrite settle_pending).
      pose proof (consistent_complete s l1 p l2 _ s1 Hs Hl Hp1 Hh1) as Hs1.
      destruct (IH s1 Hs1) as (outs & s' & Hrun & Hids & Hfresh & Hnd
                               & Hkeep & Hsettle).
      { rewrite Hp1. rewrite Hl, <- Hp in Hwp.
        rewrite remove_first_split in Hwp by (by rewrite Hp). exact Hwp. }
      exists outs, s'.
      rewrite Hh1, length_insert in Hfresh.
      assert (Hnotin : target p ∉ map target (l1 ++ l2)).
      { destruct Hs as [Hnd0 _]. rewrite Hl, map_app in Hnd0.
        simpl in Hnd0. apply NoDup_app in Hnd0 as (_ & Hdisj & Hnd2).
        apply NoDup_cons in Hnd2 as [Hp2 _].
        rewrite map_app, elem_of_app. intros [H|H]; [|done].
        apply (Hdisj _ H). by left. }
      assert (Hlt : (target p < length (heap s))%nat)
        by (apply (lookup_lt_Some _ _ _ Hpend)).
      split; [|split; [|split; [|split; [|split]]]];
        [simpl; by rewrite Hcb | done | done | done | |].
      * intros h Hh Hhlt. rewrite Hkeep.
        -- rewrite Hh1. apply list_lookup_insert_ne. intros <-.
           apply Hh. rewrite Hl, map_app, elem_of_app. right. by left.
        -- rewrite Hp1. intros Hc. apply Hh.
           rewrite Hl. rewrite !map_app, !elem_of_app in *. simpl.
           rewrite elem_of_cons. tauto.
        -- by rewrite Hh1, length_insert.
      * intros k j h Hj. specialize (Hsettle k).
        unfold pending_handles in *.
        rewrite Hl, map_app, issued_app in Hj. simpl in Hj.
        rewrite Hp1, map_app, issued_app in Hsettle.
        simpl completions.
        destruct (Z.eqb_spec k0 k) as [->|Hne].
        -- rewrite Hp, Z.eqb_refl in Hj.
           rewrite (issued_skip k l1) in Hj, Hsettle by done.
           simpl in Hj.
           destruct j as [|j]; simpl in Hj |- *.
           ++ injection Hj as <-.
              rewrite Hkeep; [|by rewrite Hp1|by rewrite Hh1, length_insert].
              rewrite Hh1. by apply list_lookup_insert_eq.
           ++ apply Hsettle. exact Hj.
        -- apply Hsettle.
           destruct (Z.eqb_spec (id p) k); [congruence|].
           by rewrite <- app_assoc in Hj |- *.
Qed.

Example out_of_order_heap :
  heap (snd (run out_of_order init)) =
    [ mkPromise (Rejected (VArr [VStr "one"; VNum 1])) 1;
      mkPromise (Resolved (VNum 2)) 1;
      mkPromise (Resolved (VStr "three")) 1 ].
Proof. reflexivity. Qed.

Lemma spec_settlement_single e v :
  spec_settlement e [v] = if e then Rejected v else Resolved v.
Proof. reflexivity. Qed.

Lemma spec_settlement_many e (args : list value) :
  (1 < length args)%nat ->
  spec_settlement e args =
    if e then Rejected (VArr args) else Resolved (VArr args).
Proof. destruct args as [|v [|w args]]; simpl; [lia | lia | done]. Qed.

(** C1.  Every sequence of issue/complete operations in which each
    completed id is pending when it is completed runs without error from
    the constructor's state; every [Issue] returns a handle of its own;
    and, for every id [k], the handle of the [j]-th issue of [k] ends up
    settled exactly once ([settle_calls = 1]) with the settlement of the
    [j]-th completion carrying [k] -- one argument resolves or rejects
    with that value, several with the ordered list ([spec_settlement]) --
    wherever the completion stands among the other operations; a handle
    whose completion is not in the sequence is still pending and was
    never settled. *)
Theorem correlator_settles_each_call_once (ops : list op) :
  well_paired [] ops = true ->
  exists outs s',
    run ops init = (Ok outs, s') /\
    map fst outs = issue_ids ops /\
    NoDup (map snd outs) /\
    forall k j h,
      issued k outs !! j = Some h ->
      heap s' !! h = Some (settled_as (completions k ops !! j)).
Proof.
  intros Hwp.
  destruct (run_correlates ops init consistent_init Hwp)
    as (outs & s' & Hrun & Hids & _ & Hnd & _ & Hsettle).
  exists outs, s'. split; [exact Hrun|]. split; [exact Hids|].
  split; [exact Hnd|]. intros k j h Hj. apply Hsettle. exact Hj.
Qed.

Lemma correlator_settles_each_call_once_witness :
  well_paired [] out_of_order = true /\
  exists outs s',
    run out_of_order init = (Ok outs, s') /\
    map fst outs = issue_ids out_of_order /\
    NoDup (map snd outs) /\
    forall k j h,
      issued k outs !! j = Some h ->
      heap s' !! h = Some (settled_as (completions k out_of_order !! j)).
Proof.
  split; [reflexivity|].
  apply (correlator_settles_each_call_once out_of_order). reflexivity.
Defined.

(** C2.  A completion whose id has no pending call throws
    ([Error: Promise not found]); the pending calls and every promise are
    as they were. *)
Theorem complete_unknown_id_throws k e args s :
  k ∉ map id (_promises s) ->
  exists s',
    _ipcPromiseCallback k e args s =
      (Throw (newError "Promise not found"), s') /\
    _promises s' = _promises s /\
    heap s' = heap s.
Proof.
  intros H. rewrite (callback_missing k e args s H).
  eexists. split; [reflexivity|]. split; reflexivity.
Qed.

Lemma complete_unknown_id_throws_witness :
  let s := snd (appendPromise 2 (snd (appendPromise 1 init))) in
  (5 ∉ map id (_promises s)) /\
  exists s',
    _ipcPromiseCallback 5 false [VNum 0] s =
      (Throw (newError "Promise not found"), s') /\
    _promises s' = _promises s /\
    heap s' = heap s.
Proof.
  intros s.
  assert (H : 5 ∉ map id (_promises s))
    by (apply (bool_decide_eq_false_1 (5 ∈ map id (_promises s)));
        reflexivity).
  split; [exact H|].
  exact (complete_unknown_id_throws 5 false [VNum 0] s H).
Defined.

(** C10.  A completion without trailing arguments for a pending id takes
    the several-arguments branch: the promise of the oldest pending call
    with that id is settled once with the empty list, resolved when
    [isError] is false and rejected when it is true. *)
Theorem complete_without_arguments k (e : bool) s l1 p l2 :
  consistent s ->
  _promises s = l1 ++ p :: l2 ->
  k ∉ map id l1 ->
  id p = k ->
  exists s',
    _ipcPromiseCallback k e [] s = (Ok (), s') /\
    _promises s' = l1 ++ l2 /\
    heap s' !! target p =
      Some (mkPromise (if e then Rejected (VArr []) else Resolved (VArr [])) 1).
Proof.
  intros [_ Hall] Hl H1 Hp.
  rewrite (callback_found k e [] s l1 p l2 Hl H1 Hp).
  eexists. split; [reflexivity|].
  assert (Hpend : heap s !! target p = Some (mkPromise Pending 0)).
  { rewrite Forall_forall in Hall. apply Hall. rewrite Hl.
    apply elem_of_app. right. by left. }
  split.
  - by rewrite settle_promises.
  - rewrite settle_pending by exact Hpend.
    cbn [heap set_promises write_log].
    rewrite list_lookup_insert_eq by (apply (lookup_lt_Some _ _ _ Hpend)).
    by destruct e.
Qed.

Lemma complete_without_arguments_witness :
  let s := snd (appendPromise 7 init) in
  let p := mkPendingCall 7 0%nat in
  consistent s /\
  _promises s = [] ++ p :: [] /\
  (7 ∉ map id []) /\
  id p = 7 /\
  exists s',
    _ipcPromiseCallback 7 true [] s = (Ok (), s') /\
    _promises s' = [] ++ [] /\
    heap s' !! target p = Some (mkPromise (Rejected (VArr [])) 1).
Proof.
  intros s p.
  assert (Hs : consistent s)
    by (apply consistent_appendPromise, consistent_init).
  assert (Hnil : 7 ∉ map id []) by apply not_elem_of_nil.
  split; [exact Hs|]. split; [reflexivity|]. split; [exact Hnil|].
  split; [reflexivity|].
  exact (complete_without_arguments 7 true s [] p [] Hs eq_refl Hnil eq_refl).
Defined.

(** *** The id counter *)

Lemma nextIds_S n s :
  nextIds (S n) s =
    let s1 := set_ipcRequestId (Js.incr (_ipcRequestId s)) s in
    (Js.incr (_ipcRequestId s) :: fst (nextIds n s1), snd (nextIds n s1)).
Proof.
  cbn [nextIds]. unfold nextIpcRequestId. cbv zeta.
  by destruct (nextIds n _).
Qed.

Lemma incr_min c :
  0 <= c <= TWO_53 -> Js.incr c = Z.min (c + 1) TWO_53.
Proof.
  intros Hc. unfold Js.incr. destruct (Z.ltb_spec c TWO_53); lia.
Qed.

(** The [i]-th value (from 0) returned in a row of calls: the counter
    advanced [i + 1] times, stuck at [2^53] once it gets there. *)
Lemma nextIds_lookup n : forall s i,
  0 <= _ipcRequestId s <= TWO_53 -> (i < n)%nat ->
  fst (nextIds n s) !! i =
    Some (Z.min (_ipcRequestId s + Z.of_nat (S i)) TWO_53).
Proof.
  induction n as [|n IH]; intros s i Hc Hi; [lia|].
  rewrite nextIds_S. cbv zeta. cbn [fst].
  pose proof (incr_min _ Hc) as Hincr.
  destruct i as [|i]; cbn [lookup list_lookup].
  - f_equal. lia.
  - rewrite IH by (cbn [_ipcRequestId set_ipcRequestId]; lia).
    cbn [_ipcRequestId set_ipcRequestId]. f_equal. lia.
Qed.

Lemma nextIds_length n : forall s, length (fst (nextIds n s)) = n.
Proof.
  induction n as [|n IH]; intros s; [done|].
  rewrite nextIds_S. cbv zeta. cbn [fst length]. by rewrite IH.
Qed.

(** A natural number as large as [2^53], never computed. *)
Lemma nat_2_53 : exists n : nat, Z.of_nat n = TWO_53.
Proof. exists (Z.to_nat TWO_53). apply Z2Nat.id. unfold TWO_53. lia. Qed.

(** C9, as the counter behaves: the first [n] calls return 1, 2, ..., n
    as long as [n] does not exceed [2^53], the largest value up to which
    the Number holding the counter counts exactly. *)
Theorem nextIds_fresh_up_to_2_53 (n : nat) :
  Z.of_nat n <= TWO_53 ->
  fst (nextIds n init) = map Z.of_nat (seq 1 n).
Proof.
  intros Hn. apply list_eq. intros i.
  destruct (decide (i < n)%nat) as [Hi|Hi].
  - rewrite nextIds_lookup by (cbn; unfold TWO_53 in *; lia).
    rewrite list_lookup_fmap, lookup_seq_lt by done. cbn.
    f_equal. lia.
  - rewrite !lookup_ge_None_2; [done| |].
    + rewrite length_map, length_seq. lia.
    + rewrite nextIds_length. lia.
Qed.

Lemma nextIds_fresh_up_to_2_53_witness :
  3 <= TWO_53 /\ fst (nextIds 3 init) = [1; 2; 3].
Proof.
  assert (H : Z.of_nat 3 <= TWO_53) by (unfold TWO_53; lia).
  split; [exact H|]. exact (nextIds_fresh_up_to_2_53 3 H).
Defined.

(** C9 fails past [2^53] calls: call number [2^53 + 1] returns [2^53]
    again, the value call number [2^53] returned, instead of
    [2^53 + 1]. *)
Lemma nextIds_repeat_past_2_53 :
  exists n : nat,
    Z.of_nat n = TWO_53 + 1 /\
    fst (nextIds n init) !! (n - 1)%nat = Some TWO_53 /\
    fst (nextIds n init) !! (n - 2)%nat = Some TWO_53 /\
    map Z.of_nat (seq 1 n) !! (n - 1)%nat = Some (TWO_53 + 1) /\
    fst (nextIds n init) <> map Z.of_nat (seq 1 n).
Proof.
  destruct nat_2_53 as [m Hm]. exists (S m).
  assert (H0 : 0 <= _ipcRequestId init <= TWO_53)
    by (cbn; unfold TWO_53; lia).
  assert (H1 : fst (nextIds (S m) init) !! (S m - 1)%nat = Some TWO_53).
  { rewrite nextIds_lookup by (done || lia). cbn [_ipcRequestId init].
    f_equal. lia. }
  assert (H2 : map Z.of_nat (seq 1 (S m)) !! (S m - 1)%nat
               = Some (TWO_53 + 1)).
  { rewrite list_lookup_fmap, lookup_seq_lt by lia.
    cbn [fmap option_fmap option_map]. f_equal. lia. }
  split; [lia|]. split; [exact H1|]. split.
  - rewrite nextIds_lookup by (done || unfold TWO_53 in *; lia).
    cbn [_ipcRequestId init]. f_equal. unfold TWO_53 in *. lia.
  - split; [exact H2|]. intros Heq. rewrite Heq, H2 in H1.
    injection H1. lia.
Qed.

End Correlator.

(** ** The debounce registry *)
Module Debounce.
Import ArcBase JsFacts.

(** A timer is armed with at least one millisecond and at most
    [TIMEOUT_MAX]; a delay in that range is taken as given, any other as
    one millisecond. *)
Lemma timer_delay_range time : 1 <= timer_delay time <= TIMEOUT_MAX.
Proof.
  unfold timer_delay, TIMEOUT_MAX.
  destruct (Z.leb_spec 1 time), (Z.leb_spec time 2147483647); cbn; lia.
Qed.

Lemma timer_delay_as_given time :
  1 <= time <= TIMEOUT_MAX -> timer_delay time = time.
Proof.
  unfold timer_delay, TIMEOUT_MAX. intros H.
  destruct (Z.leb_spec 1 time), (Z.leb_spec time 2147483647); cbn; lia.
Qed.

Lemma timer_delay_otherwise time :
  time < 1 \/ TIMEOUT_MAX < time -> timer_delay time = 1.
Proof.
  unfold timer_delay, TIMEOUT_MAX. intros H.
  destruct (Z.leb_spec 1 time), (Z.leb_spec time 2147483647); cbn; lia.
Qed.

Lemma name_mismatch_iff (l : list Debouncer) n :
  Forall (fun d => String.eqb (name d) n = false) l <-> n ∉ map name l.
Proof.
  induction l as [|d l IH]; simpl.
  - split; [intros _; apply not_elem_of_nil | constructor].
  - rewrite Forall_cons, not_elem_of_cons, IH, String.eqb_neq.
    split; intros [? ?]; split; congruence.
Qed.

Lemma _debounceIndex_absent n s :
  n ∉ live s -> _debounceIndex n s = -1.
Proof.
  intros H. apply findIndex_none. by apply name_mismatch_iff.
Qed.

Lemma _debounceIndex_first n s l1 d l2 :
  _debouncers s = l1 ++ d :: l2 ->
  n ∉ map name l1 -> name d = n ->
  _debounceIndex n s = Z.of_nat (length l1).
Proof.
  intros Hl H1 Hd. unfold _debounceIndex. rewrite Hl.
  apply findIndex_first; [by apply name_mismatch_iff|].
  by apply String.eqb_eq.
Qed.

(** A live name splits the registry at its entry. *)
Lemma live_split n s :
  n ∈ live s ->
  exists l1 d l2,
    _debouncers s = l1 ++ d :: l2 /\ (n ∉ map name l1) /\ name d = n.
Proof.
  intros Hin.
  destruct (first_match_cases (fun d => String.eqb (name d) n)
                              (_debouncers s))
    as [Hnone | (l1 & d & l2 & Hl & H1 & Hd)].
  - apply name_mismatch_iff in Hnone. contradiction.
  - exists l1, d, l2. split; [done|]. split.
    + by apply name_mismatch_iff.
    + by apply String.eqb_eq.
Qed.

Lemma _debounceIndex_live n s :
  n ∈ live s -> _debounceIndex n s <> -1.
Proof.
  intros Hin. destruct (live_split n s Hin) as (l1 & d & l2 & Hl & H1 & Hd).
  rewrite (_debounceIndex_first n s l1 d l2) by done. lia.
Qed.

(** Scheduling under a live name changes nothing. *)
Lemma debounce_live n cb time s :
  n ∈ live s -> debounce n cb time s = s.
Proof.
  intros Hin. unfold debounce.
  destruct (Z.eqb_spec (_debounceIndex n s) (-1)) as [E|E]; [|done].
  by apply _debounceIndex_live in Hin.
Qed.

(** Scheduling under a free name arms one timer and adds one entry. *)
Lemma debounce_free n cb time s :
  n ∉ live s ->
  debounce n cb time s =
    set_debouncers (_debouncers s ++ [mkDebouncer n (nextTimerId s)])
      (set_nextTimerId (S (nextTimerId s))
         (set_timers
            (timers s
               ++ [mkTimer (nextTimerId s) (now s + timer_delay time) n cb])
            s)).
Proof.
  intros H. unfold debounce. by rewrite _debounceIndex_absent.
Qed.

Lemma registry_ok_init : registry_ok init.
Proof. repeat split; constructor. Qed.

Lemma linked_names ds ts :
  Forall2 linked ds ts -> map name ds = map closure_name ts.
Proof.
  induction 1 as [|d t ds ts [Hn _] _ IH]; simpl; [done|]. by rewrite Hn, IH.
Qed.

Lemma registry_ok_debounce n cb time s :
  registry_ok s -> registry_ok (debounce n cb time s).
Proof.
  intros Hs. destruct (decide (n ∈ live s)) as [Hin|Hout].
  { by rewrite debounce_live. }
  rewrite debounce_free by done.
  pose proof (timer_delay_range time) as Hdelay.
  destruct Hs as (Hlink & Hnd & Hids & Hall).
  split; [|split; [|split]]; cbn.
  - apply Forall2_app; [done|]. by repeat constructor.
  - unfold live. cbn. rewrite map_app. apply NoDup_app.
    split; [done|]. split; [|apply NoDup_singleton].
    intros x Hx Hx'. apply list_elem_of_singleton in Hx' as ->. done.
  - rewrite map_app. apply NoDup_app.
    split; [done|]. split; [|apply NoDup_singleton].
    intros x Hx Hx'. apply list_elem_of_singleton in Hx'. cbn in Hx'.
    subst x. apply list_elem_of_fmap in Hx as (t & Ht & Hin).
    rewrite Forall_forall in Hall. destruct (Hall t Hin). lia.
  - apply Forall_app. split.
    + eapply Forall_impl; [exact Hall|]. cbn. intros t [? ?]. split; lia.
    + repeat constructor; cbn; lia.
Qed.

Lemma filter_all {A} (P : A -> Prop) `{forall x, Decision (P x)} l :
  Forall P l -> filter P l = l.
Proof.
  induction 1 as [|x l Hx _ IH]; [done|].
  rewrite filter_cons_True by done. by rewrite IH.
Qed.

(** Disarming the timer in the middle of the list leaves the others. *)
Lemma clear_middle (t1 : list Timer) t t2 :
  NoDup (map timerId (t1 ++ t :: t2)) ->
  filter (fun u => timerId u <> timerId t) (t1 ++ t :: t2) = t1 ++ t2.
Proof.
  rewrite map_app. simpl. intros Hnd.
  apply NoDup_app in Hnd as (_ & Hdisj & Hnd2).
  apply NoDup_cons in Hnd2 as [Ht2 _].
  rewrite filter_app, filter_cons_False by (intros Hc; by apply Hc).
  rewrite !filter_all; [done| |].
  - apply Forall_forall. intros u Hu Heq. apply Ht2. rewrite <- Heq.
    apply list_elem_of_fmap. by exists u.
  - apply Forall_forall. intros u Hu Heq. apply (Hdisj (timerId u)).
    + apply list_elem_of_fmap. by exists u.
    + rewrite Heq. by left.
Qed.

(** The registry splits where the timers do. *)
Lemma registry_split s t1 t t2 :
  registry_ok s -> timers s = t1 ++ t :: t2 ->
  exists d1 d d2,
    _debouncers s = d1 ++ d :: d2 /\
    Forall2 linked d1 t1 /\ linked d t /\ Forall2 linked d2 t2 /\
    (name d ∉ map name d1).
Proof.
  intros (Hlink & Hnd & _) Ht. rewrite Ht in Hlink.
  apply Forall2_app_inv_r in Hlink as (d1 & d' & H1 & H2 & Hd).
  apply Forall2_cons_inv_r in H2 as (d & d2 & Hdt & H2 & ->).
  exists d1, d, d2. split; [done|]. split; [done|]. split; [done|].
  split; [done|].
  unfold live in Hnd. rewrite Hd, map_app in Hnd. simpl in Hnd.
  apply NoDup_app in Hnd as (_ & Hdisj & _).
  intros Hin. apply (Hdisj _ Hin). by left.
Qed.

Lemma registry_ok_remove s s' d1 d d2 t1 t t2 :
  registry_ok s ->
  _debouncers s = d1 ++ d :: d2 -> timers s = t1 ++ t :: t2 ->
  Forall2 linked d1 t1 -> Forall2 linked d2 t2 ->
  _debouncers s' = d1 ++ d2 -> timers s' = t1 ++ t2 ->
  nextTimerId s' = nextTimerId s ->
  Forall (fun u => now s' <= due u) (t1 ++ t2) ->
  registry_ok s'.
Proof.
  intros (Hlink & Hnd & Hids & Hall) Hd Ht H1 H2 Hd' Ht' Hnext Hnow.
  unfold registry_ok, live in *. rewrite Hd' , Ht', Hnext.
  rewrite Hd in Hnd. rewrite Ht in Hids, Hall.
  rewrite map_app in Hnd, Hids. simpl in Hnd, Hids.
  apply NoDup_app in Hnd as (Hn1 & Hndisj & Hn2).
  apply NoDup_cons in Hn2 as [_ Hn2].
  apply NoDup_app in Hids as (Hi1 & Hidisj & Hi2).
  apply NoDup_cons in Hi2 as [_ Hi2].
  apply Forall_app in Hall as [Ha1 Ha2].
  apply Forall_cons in Ha2 as [_ Ha2].
  split; [by apply Forall2_app|].
  split; [|split].
  - rewrite map_app. apply NoDup_app. split; [done|]. split; [|done].
    intros x Hx Hx'. apply (Hndisj x Hx). by right.
  - rewrite map_app. apply NoDup_app. split; [done|]. split; [|done].
    intros x Hx Hx'. apply (Hidisj x Hx). by right.
  - rewrite Forall_forall in Hnow. apply Forall_forall. intros u Hu.
    split; [|by apply Hnow].
    rewrite Forall_forall in Ha1, Ha2.
    apply elem_of_app in Hu as [Hu|Hu]; [by apply Ha1 | by apply Ha2].
Qed.

(** What running a timer does to a state whose registry is in order. *)
Lemma fire_split s t1 t t2 :
  registry_ok s -> timers s = t1 ++ t :: t2 ->
  exists d1 d d2,
    _debouncers s = d1 ++ d :: d2 /\
    Forall2 linked d1 t1 /\ Forall2 linked d2 t2 /\
    fire t s =
      set_invoked
        (invoked s ++ [(due t, closure_name t, closure_callback t)])
        (set_debouncers (d1 ++ d2)
           (set_now (due t) (set_timers (t1 ++ t2) s))).
Proof.
  intros Hs Ht.
  destruct (registry_split s t1 t t2 Hs Ht)
    as (d1 & d & d2 & Hd & H1 & [Hname Hid] & H2 & Hfresh).
  exists d1, d, d2. split; [done|]. split; [done|]. split; [done|].
  destruct Hs as (_ & _ & Hids & Hall).
  assert (Hnow : Z.max (now s) (due t) = due t).
  { rewrite Forall_forall in Hall. destruct (Hall t) as [_ ?]; [|lia].
    rewrite Ht. apply elem_of_app. right. by left. }
  unfold fire, timer_closure, clearTimeout.
  rewrite Ht, clear_middle by (by rewrite <- Ht).
  cbn [now set_timers set_now]. rewrite Hnow.
  erewrite (_debounceIndex_first (closure_name t) _ d1 d d2);
    [| by cbn | by rewrite <- Hname | done].
  cbn [_debouncers set_timers set_now]. rewrite Hd, splice_middle.
  reflexivity.
Qed.

Lemma next_due_None T l :
  next_due T l = None -> Forall (fun u => T < due u) l.
Proof.
  induction l as [|t l IH]; simpl; [constructor|].
  destruct (next_due T l) as [u|].
  - destruct (due t <=? T); [destruct (due t <=? due u)|]; discriminate.
  - destruct (Z.leb_spec (due t) T); [discriminate|].
    intros _. constructor; [lia | by apply IH].
Qed.

(** The timer chosen is armed, due, and no later than any other due
    timer. *)
Lemma next_due_Some T l t :
  next_due T l = Some t ->
  due t <= T /\
  Forall (fun u => T < due u \/ due t <= due u) l /\
  exists l1 l2, l = l1 ++ t :: l2.
Proof.
  revert t. induction l as [|a l IH]; intros t; simpl; [discriminate|].
  destruct (next_due T l) as [u|] eqn:Hu.
  - destruct (IH u eq_refl) as (HuT & Hmin & l1 & l2 & ->).
    destruct (Z.leb_spec (due a) T) as [HaT|HaT].
    + destruct (Z.leb_spec (due a) (due u)) as [Hau|Hau];
        intros [= <-].
      * split; [done|]. split.
        -- constructor; [lia|]. eapply Forall_impl; [exact Hmin|].
           simpl. lia.
        -- by exists [], (l1 ++ u :: l2).
      * split; [done|]. split.
        -- constructor; [lia | done].
        -- by exists (a :: l1), l2.
    + intros [= <-]. split; [done|]. split.
      * constructor; [lia | done].
      * by exists (a :: l1), l2.
  - pose proof (next_due_None T l Hu) as Hnone.
    destruct (Z.leb_spec (due a) T) as [HaT|HaT]; [|discriminate].
    intros [= <-]. split; [done|]. split.
    + constructor; [lia|]. eapply Forall_impl; [exact Hnone|].
      simpl. lia.
    + by exists [], l.
Qed.

Lemma due_invocations_absent n T l :
  n ∉ map closure_name l -> due_invocations n T l = [].
Proof.
  induction l as [|t l IH]; simpl; [done|].
  rewrite not_elem_of_cons. intros [Hne Hl].
  destruct (String.eqb_spec (closure_name t) n); [congruence|].
  by apply IH.
Qed.

Lemma due_invocations_app n T l1 l2 :
  due_invocations n T (l1 ++ l2) =
    due_invocations n T l1 ++ due_invocations n T l2.
Proof. apply omap_app. Qed.

Lemma due_invocations_cons n T t l :
  due_invocations n T (t :: l) =
    (if String.eqb (closure_name t) n && (due t <=? T)
     then [(due t, closure_callback t)] else [])
      ++ due_invocations n T l.
Proof.
  unfold due_invocations. simpl.
  by destruct (String.eqb (closure_name t) n && (due t <=? T)).
Qed.

(** Taking a due timer out of the list: its invocation comes first. *)
Lemma due_invocations_remove n T (t1 : list Timer) t t2 :
  NoDup (map closure_name (t1 ++ t :: t2)) -> due t <= T ->
  (if String.eqb (closure_name t) n
   then [(due t, closure_callback t)] else [])
    ++ due_invocations n T (t1 ++ t2) =
  due_invocations n T (t1 ++ t :: t2).
Proof.
  intros Hnd Ht. rewrite map_app in Hnd. simpl in Hnd.
  apply NoDup_app in Hnd as (_ & Hdisj & Hnd2).
  apply NoDup_cons in Hnd2 as [Ht2 _].
  rewrite !due_invocations_app, due_invocations_cons.
  destruct (Z.leb_spec (due t) T); [|lia].
  destruct (String.eqb_spec (closure_name t) n) as [Hn|Hn]; [|done].
  assert (H1 : n ∉ map closure_name t1).
  { intros Hin. apply (Hdisj _ Hin). rewrite Hn. by left. }
  assert (H2 : n ∉ map closure_name t2) by (by rewrite <- Hn).
  rewrite !(due_invocations_absent n T t1) by done.
  by rewrite !(due_invocations_absent n T t2) by done.
Qed.

Lemma filter_remove_due T (t1 : list Timer) t t2 :
  due t <= T ->
  filter (fun u => T < due u) (t1 ++ t :: t2) =
    filter (fun u => T < due u) (t1 ++ t2).
Proof.
  intros Ht. rewrite !filter_app, filter_cons_False by lia. done.
Qed.

Lemma due_invocations_later n T l :
  Forall (fun u => T < due u) l -> due_invocations n T l = [].
Proof.
  induction 1 as [|t l Ht _ IH]; [done|].
  rewrite due_invocations_cons, IH.
  destruct (Z.leb_spec (due t) T); [lia|]. by rewrite andb_false_r.
Qed.

Lemma timer_names_NoDup s :
  registry_ok s -> NoDup (map closure_name (timers s)).
Proof.
  intros (Hlink & Hnd & _). by rewrite <- (linked_names _ _ Hlink).
Qed.

(** The timer loop, given fuel for every armed timer: exactly the timers
    due by [T] are run, each invoking its task at its due time. *)
Lemma run_timers_spec n T fuel : forall s,
  registry_ok s -> (length (timers s) <= fuel)%nat ->
  registry_ok (run_timers fuel T s) /\
  timers (run_timers fuel T s) = filter (fun u => T < due u) (timers s) /\
  invocations n (run_timers fuel T s) =
    invocations n s ++ due_invocations n T (timers s) /\
  (now s <= T -> now (run_timers fuel T s) <= T).
Proof.
  induction fuel as [|fuel IH]; intros s Hs Hlen.
  - destruct (timers s) eqn:Ht; [|simpl in Hlen; lia].
    simpl. rewrite Ht. cbn. by rewrite app_nil_r.
  - cbn [run_timers]. destruct (next_due T (timers s)) as [t|] eqn:Hnext.
    + destruct (next_due_Some T _ t Hnext) as (HtT & Hmin & t1 & t2 & Ht).
      destruct (fire_split s t1 t t2 Hs Ht)
        as (d1 & d & d2 & Hd & H1 & H2 & Hfire).
      pose proof (timer_names_NoDup s Hs) as Hnames.
      assert (Hs1 : registry_ok (fire t s)).
      { apply (registry_ok_remove s _ d1 d d2 t1 t t2);
          try done; try (by rewrite Hfire).
        rewrite Hfire. cbn. rewrite Ht in Hmin.
        apply Forall_app in Hmin as [Hm1 Hm2].
        apply Forall_cons in Hm2 as [_ Hm2].
        apply Forall_app. split;
          (eapply Forall_impl; [eassumption|]; simpl; lia). }
      destruct (IH (fire t s) Hs1) as (Hok & Htimers & Hinv & Hnow).
      { rewrite Hfire. cbn. rewrite Ht, length_app in Hlen.
        rewrite length_app. simpl in Hlen. lia. }
      split; [done|]. split; [|split].
      * rewrite Htimers, Hfire. cbn. rewrite Ht.
        by rewrite filter_remove_due.
      * assert (Hinv1 : invocations n (fire t s) =
                  invocations n s ++
                  (if String.eqb (closure_name t) n
                   then [(due t, closure_callback t)] else [])).
        { rewrite Hfire. unfold invocations.
          cbn [invoked set_invoked set_debouncers set_now set_timers].
          rewrite omap_app. simpl.
          by destruct (String.eqb (closure_name t) n). }
        assert (Htm1 : timers (fire t s) = t1 ++ t2) by (by rewrite Hfire).
        rewrite Hinv, Hinv1, Htm1, Ht. rewrite Ht in Hnames.
        rewrite <- (due_invocations_remove n T t1 t t2) by done.
        by rewrite app_assoc.
      * intros _. apply Hnow. rewrite Hfire. cbn. lia.
    + pose proof (next_due_None T _ Hnext) as Hlater.
      split; [done|]. split; [by rewrite filter_all|].
      split; [|done].
      by rewrite due_invocations_later, app_nil_r.
Qed.

(** The passing of [d] milliseconds. *)
Lemma advance_spec n d s :
  registry_ok s ->
  registry_ok (advance d s) /\
  now (advance d s) = now s + Z.max 0 d /\
  timers (advance d s) =
    filter (fun u => now s + Z.max 0 d < due u) (timers s) /\
  invocations n (advance d s) =
    invocations n s ++ due_invocations n (now s + Z.max 0 d) (timers s).
Proof.
  intros Hs. unfold advance. cbv zeta.
  destruct (run_timers_spec n (now s + Z.max 0 d) (length (timers s)) s Hs)
    as (Hok & Htimers & Hinv & Hnow); [done|].
  split; [|split; [done|split; [done|done]]].
  destruct Hok as (Hlink & Hnd & Hids & Hall).
  split; [done|]. split; [done|]. split; [done|].
  cbn [timers nextTimerId now set_now].
  apply Forall_forall. intros u Hu.
  rewrite Forall_forall in Hall. destruct (Hall u Hu) as [Hid _].
  split; [done|].
  rewrite Htimers in Hu. apply list_elem_of_filter in Hu as [Hu _]. lia.
Qed.

Lemma cancelDebounce_absent n s :
  n ∉ live s -> cancelDebounce n s = s.
Proof.
  intros H. unfold cancelDebounce. by rewrite _debounceIndex_absent.
Qed.

(** Cancelling a live name disarms its timer and drops its entry. *)
Lemma cancelDebounce_live n s :
  registry_ok s -> n ∈ live s ->
  exists d1 d d2 t1 t t2,
    _debouncers s = d1 ++ d :: d2 /\ timers s = t1 ++ t :: t2 /\
    Forall2 linked d1 t1 /\ Forall2 linked d2 t2 /\ name d = n /\
    cancelDebounce n s =
      set_debouncers (d1 ++ d2) (set_timers (t1 ++ t2) s).
Proof.
  intros Hs Hin. pose proof Hs as (Hlink & _ & Hids & _).
  destruct (live_split n s Hin) as (d1 & d & d2 & Hd & Hfresh & Hname).
  rewrite Hd in Hlink.
  apply Forall2_app_inv_l in Hlink as (t1 & t' & H1 & H2 & Ht).
  apply Forall2_cons_inv_l in H2 as (t & t2 & [_ Hid] & H2 & ->).
  exists d1, d, d2, t1, t, t2.
  split; [done|]. split; [done|]. split; [done|]. split; [done|].
  split; [done|].
  unfold cancelDebounce.
  rewrite (_debounceIndex_first n s d1 d d2) by done.
  destruct (Z.eqb_spec (Z.of_nat (length d1)) (-1)); [lia|].
  rewrite Hd, at_index_middle. unfold clearTimeout.
  rewrite Hid, Ht, clear_middle by (by rewrite <- Ht).
  cbn [_debouncers set_timers]. by rewrite Hd, splice_middle.
Qed.

Lemma registry_ok_cancelDebounce n s :
  registry_ok s -> registry_ok (cancelDebounce n s).
Proof.
  intros Hs. destruct (decide (n ∈ live s)) as [Hin|Hout].
  - destruct (cancelDebounce_live n s Hs Hin)
      as (d1 & d & d2 & t1 & t & t2 & Hd & Ht & H1 & H2 & _ & ->).
    apply (registry_ok_remove s _ d1 d d2 t1 t t2); try done.
    destruct Hs as (_ & _ & _ & Hall). cbn. rewrite Ht in Hall.
    apply Forall_app in Hall as [Ha1 Ha2].
    apply Forall_cons in Ha2 as [_ Ha2].
    apply Forall_app. split;
      (eapply Forall_impl; [eassumption|]; simpl; tauto).
  - by rewrite cancelDebounce_absent.
Qed.

(** The registry only depends on four fields of the state. *)
Lemma registry_ok_fields s s' :
  _debouncers s' = _debouncers s -> timers s' = timers s ->
  nextTimerId s' = nextTimerId s -> now s' = now s ->
  registry_ok s -> registry_ok s'.
Proof.
  unfold registry_ok, live. by intros -> -> -> ->.
Qed.

Lemma registry_ok_settle h outcome s :
  registry_ok s -> registry_ok (settle h outcome s).
Proof.
  unfold settle. by destruct (heap s !! h).
Qed.

Lemma registry_ok_ipcPromiseCallback k e args s :
  registry_ok s -> registry_ok (snd (_ipcPromiseCallback k e args s)).
Proof.
  intros Hs. unfold _ipcPromiseCallback.
  repeat match goal with
         | |- context [if ?b then _ else _] => destruct b
         | |- context [match ?o with Some _ => _ | None => _ end] =>
             destruct o
         end;
    cbn [snd]; try apply registry_ok_settle;
    by apply (registry_ok_fields s).
Qed.

(** In every state the object goes through, the registry and the timers
    agree; in particular no name is live twice. *)
Lemma reachable_registry_ok s : reachable s -> registry_ok s.
Proof.
  induction 1.
  - apply registry_ok_init.
  - by apply registry_ok_debounce.
  - by apply registry_ok_cancelDebounce.
  - by apply (advance_spec "" d s).
  - by apply (registry_ok_fields s).
  - by apply (registry_ok_fields s).
  - by apply registry_ok_ipcPromiseCallback.
Qed.

Lemma live_timer_names s :
  registry_ok s -> live s = map closure_name (timers s).
Proof. intros (Hlink & _). by apply linked_names. Qed.

Lemma filter_names_absent n (P : Timer -> Prop)
      `{forall u, Decision (P u)} (l : list Timer) :
  n ∉ map closure_name l -> n ∉ map closure_name (filter P l).
Proof.
  intros Hn Hin. apply Hn.
  apply list_elem_of_fmap in Hin as (u & -> & Hu).
  apply list_elem_of_filter in Hu as [_ Hu].
  apply list_elem_of_fmap. by exists u.
Qed.




Example schedule_twice_log :
  invoked (advance 1500
             (debounce "ajax-call" 8%nat 100
                (advance 500
                   (debounce "ajax-call" 7%nat 2000
                      (debounce "other" 1%nat 50 init))))) =
    [(50, "other", 1%nat); (2000, "ajax-call", 7%nat)].
Proof. reflexivity. Qed.

(** A delay of zero, a negative delay and a delay above [TIMEOUT_MAX] all
    arm a timer of one millisecond: nothing runs before a millisecond has
    passed, and the task runs once it has. *)
Example delay_out_of_range :
  invoked (advance 0 (debounce "ajax-call" 7%nat 0 init)) = [] /\
  invoked (advance 1 (debounce "ajax-call" 7%nat 0 init))
    = [(1, "ajax-call", 7%nat)] /\
  invoked (advance 1 (debounce "ajax-call" 7%nat (-20) init))
    = [(1, "ajax-call", 7%nat)] /\
  invoked (advance 1 (debounce "ajax-call" 7%nat 3000000000 init))
    = [(1, "ajax-call", 7%nat)] /\
  invoked (advance 2147483646 (debounce "ajax-call" 7%nat TIMEOUT_MAX init))
    = [] /\
  invoked (advance 2147483647 (debounce "ajax-call" 7%nat TIMEOUT_MAX init))
    = [(2147483647, "ajax-call", 7%nat)].
Proof. repeat split; reflexivity. Qed.

End Debounce.

(** ** The command router *)
Module Router.
Import ArcInit.

Lemma switch_miss {A} x (cases : list (string * A)) d :
  x ∉ map fst cases -> switch x cases d = d.
Proof.
  induction cases as [|[l body] cases IH]; simpl; [done|].
  rewrite not_elem_of_cons. intros [Hne Hrest].
  destruct (String.eqb_spec x l); [done | by apply IH].
Qed.

Lemma command_case_labels env e args :
  map fst (command_cases env e args) = command_vocabulary.
Proof. reflexivity. Qed.

Lemma request_case_labels env args :
  map fst (request_cases env args) = request_vocabulary.
Proof. reflexivity. Qed.

Lemma route_commands : map fst command_routes = command_vocabulary.
Proof. reflexivity. Qed.

(** C5.  A command name outside the vocabulary logs the warning
    [Unknown command] with the name and the arguments, and the handler
    returns normally; nothing else happens. *)
Theorem unknown_command_warns env e action args s :
  action ∉ command_vocabulary ->
  commandHandler env e action args s =
    (Ok (),
     logged [ConsoleWarn [VStr "Unknown command"; VStr action; VArr args]]
            s).
Proof.
  intros H. unfold commandHandler.
  rewrite switch_miss by (by rewrite command_case_labels).
  reflexivity.
Qed.

Lemma unknown_command_warns_witness :
  ("open-devtools" ∉ command_vocabulary) /\
  commandHandler (calm_env None) (VObject 0) "open-devtools" [VNum 1]
                 window_ready =
    (Ok (),
     logged [ConsoleWarn [VStr "Unknown command"; VStr "open-devtools";
                          VArr [VNum 1]]]
            window_ready).
Proof.
  assert (H : "open-devtools" ∉ command_vocabulary)
    by (apply (bool_decide_eq_false_1
                 ("open-devtools" ∈ command_vocabulary));
        reflexivity).
  split; [exact H|].
  exact (unknown_command_warns (calm_env None) (VObject 0) "open-devtools"
           [VNum 1] window_ready H).
Defined.

Lemma substring_all (a : string) :
  String.substring 0 (String.length a) a = a.
Proof. induction a as [|c a IH]; simpl; [done | by rewrite IH]. Qed.

(** C6.  A request action outside the vocabulary makes the handler
    throw an [Error] whose message is [Unrecognized action ] followed by
    that action name, character for character; nothing else happens. *)
Theorem unknown_request_action_throws env e action args s :
  action ∉ request_vocabulary ->
  exists err,
    execRequestAction env e action args s = (Throw err, s) /\
    message err = "Unrecognized action " +:+ action /\
    String.substring 20 (String.length action) (message err) = action.
Proof.
  intros H. exists (newError ("Unrecognized action " +:+ action)).
  split; [|split].
  - unfold execRequestAction.
    by rewrite switch_miss by (by rewrite request_case_labels).
  - reflexivity.
  - cbn. apply substring_all.
Qed.

Lemma unknown_request_action_throws_witness :
  ("duplicate-tab" ∉ request_vocabulary) /\
  exists err,
    execRequestAction (calm_env None) (VObject 0) "duplicate-tab" []
                      window_ready = (Throw err, window_ready) /\
    message err = "Unrecognized action " +:+ "duplicate-tab" /\
    String.substring 20 (String.length "duplicate-tab") (message err)
      = "duplicate-tab".
Proof.
  assert (H : "duplicate-tab" ∉ request_vocabulary)
    by (apply (bool_decide_eq_false_1
                 ("duplicate-tab" ∈ request_vocabulary));
        reflexivity).
  split; [exact H|].
  exact (unknown_request_action_throws (calm_env None) (VObject 0)
           "duplicate-tab" [] window_ready H).
Defined.

Lemma app_call_present env m args s :
  app_element s = true ->
  app_call env m args s =
    (match handler_throws env App m args with
     | Some err => Throw err
     | None => Ok ()
     end, logged [Invoke App m args] s).
Proof.
  intros H. unfold app_call, bind, get. rewrite H.
  unfold invoke, bind, emit. by destruct (handler_throws env App m args).
Qed.

Lemma invoke_this env m args s :
  invoke env This m args s =
    (match handler_throws env This m args with
     | Some err => Throw err
     | None => Ok ()
     end, logged [Invoke This m args] s).
Proof.
  unfold invoke, bind, emit. by destruct (handler_throws env This m args).
Qed.

Lemma app_call_absent env m args s :
  app_element s = false ->
  app_call env m args s =
    (Throw (TypeError "Cannot read properties of null"), s).
Proof. intros H. unfold app_call, bind, get. by rewrite H. Qed.

(** C8, as the router is written.  The route table covers exactly the
    command vocabulary and names a different handler for every command.
    Dispatching a command of the table runs its handler once (a handler
    of the application element needs the element to be in the document)
    with the arguments of its route: the event object if the route
    passes it, then the first [arity] trailing arguments, in order and
    unchanged; trailing arguments beyond the arity are not passed on. *)
Theorem command_routes_to_handler env c r e args s :
  (c, r) ∈ command_routes ->
  (on r = App -> app_element s = true) ->
  map fst command_routes = command_vocabulary /\
  NoDup (map (fun cr => handler (snd cr)) command_routes) /\
  commandHandler env e c args s =
    (match handler_throws env (on r) (handler r) (forwarded r e args) with
     | Some err => Throw err
     | None => Ok ()
     end,
     logged [Invoke (on r) (handler r) (forwarded r e args)] s).
Proof.
  intros Hin Happ. split; [reflexivity|]. split.
  { apply (bool_decide_eq_true_1
             (NoDup (map (fun cr => handler (snd cr)) command_routes))).
    reflexivity. }
  unfold command_routes in Hin.
  repeat (apply elem_of_cons in Hin as [Hin|Hin];
          [injection Hin as -> ->;
           first [ rewrite <- (app_call_present env _ _ s (Happ eq_refl))
                 | rewrite <- invoke_this ];
           reflexivity |]).
  by apply elem_of_nil in Hin.
Qed.

Lemma command_routes_to_handler_witness :
  let r := mkRoute This "activateTab" true 2 in
  (("activate-tab", r) ∈ command_routes) /\
  (on r = App -> app_element init = true) /\
  map fst command_routes = command_vocabulary /\
  NoDup (map (fun cr => handler (snd cr)) command_routes) /\
  commandHandler (calm_env None) (VObject 0) "activate-tab"
                 [VNum 4; VNum 2; VStr "extra"] init =
    (Ok (),
     logged [Invoke This "activateTab" [VObject 0; VNum 4; VNum 2]] init).
Proof.
  intros r.
  assert (Hin : ("activate-tab", r) ∈ command_routes).
  { apply list_elem_of_In. repeat (first [by left | right]). }
  assert (Happ : on r = App -> app_element init = true)
    by (intros Hc; discriminate Hc).
  split; [exact Hin|]. split; [exact Happ|].
  exact (command_routes_to_handler (calm_env None) "activate-tab" r
           (VObject 0) [VNum 4; VNum 2; VStr "extra"] init Hin Happ).
Defined.

(** C8 fails as stated: [show-settings] calls its handler without the
    trailing argument it was given; [get-tabs-count] passes the event
    object and only the first of two trailing arguments; and without the
    application element in the document [show-settings] throws before
    any handler runs. *)
Lemma command_arguments_not_forwarded :
  commandHandler (calm_env None) (VObject 0) "show-settings" [VNum 1]
                 window_ready =
    (Ok (), logged [Invoke App "openSettings" []] window_ready) /\
  Invoke App "openSettings" [] <> Invoke App "openSettings" [VNum 1] /\
  commandHandler (calm_env None) (VObject 0) "get-tabs-count"
                 [VNum 7; VStr "extra"] window_ready =
    (Ok (),
     logged [Invoke This "sendTabsCount" [VObject 0; VNum 7]] window_ready)
  /\
  commandHandler (calm_env None) (VObject 0) "show-settings" [] init =
    (Throw (TypeError "Cannot read properties of null"), init).
Proof. repeat split; (reflexivity || discriminate). Qed.

End Router.

(** ** The start-up sequence *)
Module Lifecycle.
Import ArcInit.

Ltac run_step :=
  unfold _stateInfoHandler, initApp, prefProxy_load, reportFatalError,
    bind, try_catch, set_initConfig, enter, get, emit, count_pref_load,
    lift, throw, ret;
  cbn [trace created app_element initConfig pref_loads stages fst snd].

(** C3.  When loading the preferences fails with [e] during
    ConfigReceived, the handler reports [e] to the console, sends
    [fatal-error] with [e.message] across the boundary and throws [e]
    itself; the only stage entered is ConfigReceived, so Built,
    PathResolved and Ready are not reached. *)
Theorem preference_failure_is_fatal env info s e :
  prefs_load env (pref_loads s) = Throw e ->
  exists s',
    _stateInfoHandler env info s = (Throw e, s') /\
    trace s' =
      trace s ++ [WorkspaceObserve (workspaceFile (default emptyConfig info));
                  PrefsLoad;
                  ConsoleError e;
                  IpcSend "fatal-error" [VStr (message e)]] /\
    stages s' = stages s ++ [ConfigReceived] /\
    (forall st, st ∈ [Built; PathResolved; Ready] ->
                st ∉ stages s -> st ∉ stages s').
Proof.
  intros H. eexists. split; [|split; [|split]].
  - run_step. rewrite H. reflexivity.
  - cbn. by rewrite <- !app_assoc.
  - reflexivity.
  - cbn. intros st Hst Hs. rewrite elem_of_app, list_elem_of_singleton.
    intros [?| ->]; [done|].
    rewrite !elem_of_cons in Hst. rewrite elem_of_nil in Hst.
    destruct Hst as [?|[?|[?|[]]]]; discriminate.
Qed.

Lemma preference_failure_is_fatal_witness :
  let e := newError "Unable to read settings file" in
  let env := failing_prefs_env e in
  let info := Some (mkInitConfig (Some "workspace.json") false None) in
  prefs_load env (pref_loads init) = Throw e /\
  exists s',
    _stateInfoHandler env info init = (Throw e, s') /\
    trace s' =
      trace init ++ [WorkspaceObserve
                       (workspaceFile (default emptyConfig info));
                     PrefsLoad;
                     ConsoleError e;
                     IpcSend "fatal-error" [VStr (message e)]] /\
    stages s' = stages init ++ [ConfigReceived] /\
    (forall st, st ∈ [Built; PathResolved; Ready] ->
                st ∉ stages init -> st ∉ stages s').
Proof.
  intros e env info. split; [reflexivity|].
  exact (preference_failure_is_fatal env info init e eq_refl).
Defined.

(** The handler is the part before the start path, then
    [processInitialPath], then the steps of Ready. *)
Lemma _stateInfoHandler_split env info s :
  _stateInfoHandler env info s =
    match before_start_path env info s with
    | (Ok _, s2) =>
        match processInitialPath env s2 with
        | (Ok _, s3) =>
            (Ok (),
             mkState (trace s3 ++ ready_events env) (created s3)
                     (app_element s3) (initConfig s3) (pref_loads s3)
                     (stages s3 ++ [Ready]))
        | (Throw err, s3) => (Throw err, s3)
        end
    | (Throw err, s2) => (Throw err, s2)
    end.
Proof.
  unfold _stateInfoHandler, before_start_path, bind, set_initConfig, enter.
  cbv beta iota zeta.
  destruct (initApp env _) as [[[]|err] s1]; [|done].
  destruct (upgradeApp env _) as [[[]|err] s2]; [|done].
  destruct (processInitialPath env _) as [[[]|err] s3]; [|done].
  unfold removeLoader, ready_events, emit, ret.
  destruct (loader_node env); cbn; by rewrite <- ?app_assoc.
Qed.

Lemma split_slash_nonempty path h rest :
  split_slash path = h :: rest -> h <> "" -> falsy (Some path) = false.
Proof.
  destruct path as [|c path]; [|done]. simpl. by intros [= <- _].
Qed.

(** The Drive handler leaves the stages of the sequence alone. *)
Lemma handleGoogleDriveAction_stages env action fileId s :
  stages (snd (handleGoogleDriveAction env action fileId s)) = stages s.
Proof.
  unfold handleGoogleDriveAction, app_call, invoke, bind, try_catch, emit,
    get, lift, throw, ret.
  repeat (match goal with
          | |- context [if ?b then _ else _] => destruct b
          | |- context [match ?o with Some _ => _ | None => _ end] =>
              destruct o
          | |- context [match ?r with Ok _ => _ | Throw _ => _ end] =>
              destruct r
          end; cbn [fst snd stages app_element]);
    reflexivity.
Qed.

Lemma processInitialPath_protocol env s path rest :
  startPath (initConfig s) = Some path ->
  split_slash path = "file-protocol-action" :: rest ->
  processInitialPath env s = handleDefaultProtocolActon env rest s.
Proof.
  intros Hstart Hsplit. unfold processInitialPath, bind, get.
  rewrite Hstart, (split_slash_nonempty _ _ _ Hsplit) by done.
  change (default "" (Some path)) with path. rewrite Hsplit.
  by rewrite bool_decide_eq_true_2 by done.
Qed.

(** The part before the start path ends by entering PathResolved. *)
Lemma before_start_path_stage env info s s2 :
  before_start_path env info s = (Ok (), s2) ->
  last (stages s2) = Some PathResolved.
Proof.
  unfold before_start_path, bind, set_initConfig, enter.
  cbv beta iota zeta.
  destruct (initApp env _) as [[[]|err] s1]; [|done].
  destruct (upgradeApp env _) as [[[]|err] s1']; [|done].
  intros [= <-]. cbn [stages]. apply last_snoc.
Qed.

(** Every failure inside the Drive file-open handler makes the handler
    throw; in a page with the loading-info node and the application
    element, whose [notifyError] returns, it throws the error of that
    failure. *)
Lemma handleGoogleDriveAction_failure env fileId s e :
  drive_open_failure env fileId e ->
  exists err s',
    handleGoogleDriveAction env (Some "open") fileId s = (Throw err, s') /\
    (loading_info_node env = true -> app_element s = true ->
     (forall args, handler_throws env App "notifyError" args = None) ->
     err = e).
Proof.
  intros Hfail.
  unfold handleGoogleDriveAction, app_call, invoke, bind, try_catch, emit,
    get, lift, throw, ret.
  rewrite bool_decide_eq_true_2 by done. cbn [negb].
  destruct (loading_info_node env).
  2: { eexists _, _. split; [reflexivity|]. discriminate. }
  cbn [fst snd app_element trace].
  destruct Hfail as [e He | data Hdata Hfalsy | data cause Hdata Hne Hparse].
  - rewrite He. eexists _, _. split; [reflexivity|]. done.
  - rewrite Hdata, Hfalsy. cbn [app_element].
    destruct (app_element s).
    2: { eexists _, _. split; [reflexivity|]. discriminate. }
    destruct (handler_throws env App "notifyError" _) as [e'|] eqn:Hnotify.
    + eexists _, _. split; [reflexivity|].
      intros _ _ Hquiet. by rewrite Hquiet in Hnotify.
    + eexists _, _. split; [reflexivity|]. done.
  - rewrite Hdata.
    assert (Hfalsy : falsy (Some data) = false) by (by destruct data).
    rewrite Hfalsy. change (default "" (Some data)) with data.
    rewrite Hparse. cbn [app_element].
    destruct (app_element s).
    2: { eexists _, _. split; [reflexivity|]. discriminate. }
    destruct (handler_throws env App "notifyError" _) as [e'|] eqn:Hnotify.
    + eexists _, _. split; [reflexivity|].
      intros _ _ Hquiet. by rewrite Hquiet in Hnotify.
    + eexists _, _. split; [reflexivity|]. done.
Qed.

(** C4, as the sequence is written.  For a start path that encodes a
    deep-link action, with the sequence arrived at PathResolved in [s2]:
    an unknown source, or a Drive action other than [open], logs one
    warning and the sequence goes on to Ready.  Every failure inside the
    Drive file-open handler (the Drive call fails, Drive returns no data,
    the data cannot be parsed) makes the handler throw; the sequence
    throws the same error and stops at PathResolved, and in a page with
    the loading-info node and the application element, whose
    [notifyError] returns, that error is the one of the failure.
    Whatever else the handler throws, the sequence throws as well. *)
Theorem protocol_action_outcomes env info s s2 path rest :
  before_start_path env info s = (Ok (), s2) ->
  startPath (initConfig s2) = Some path ->
  split_slash path = "file-protocol-action" :: rest ->
  (rest !! 0%nat <> Some "google-drive" \/ rest !! 1%nat <> Some "open" ->
   exists w s3,
     _stateInfoHandler env info s = (Ok (), s3) /\
     trace s3 = trace s2 ++ [ConsoleWarn w] ++ ready_events env /\
     stages s3 = stages s2 ++ [Ready]) /\
  (rest !! 0%nat = Some "google-drive" -> rest !! 1%nat = Some "open" ->
   forall e, drive_open_failure env (rest !! 2%nat) e ->
     exists err s',
       handleGoogleDriveAction env (Some "open") (rest !! 2%nat) s2
         = (Throw err, s') /\
       _stateInfoHandler env info s = (Throw err, s') /\
       stages s' = stages s2 /\
       last (stages s') = Some PathResolved /\
       (loading_info_node env = true -> app_element s2 = true ->
        (forall args, handler_throws env App "notifyError" args = None) ->
        err = e)) /\
  (rest !! 0%nat = Some "google-drive" -> rest !! 1%nat = Some "open" ->
   forall err s',
     handleGoogleDriveAction env (Some "open") (rest !! 2%nat) s2
       = (Throw err, s') ->
     _stateInfoHandler env info s = (Throw err, s') /\
     stages s' = stages s2).
Proof.
  intros Hbefore Hstart Hsplit.
  pose proof (_stateInfoHandler_split env info s) as Hrun.
  rewrite Hbefore, (processInitialPath_protocol env s2 path rest) in Hrun
    by done.
  unfold handleDefaultProtocolActon in Hrun.
  assert (Hpropagate :
    rest !! 0%nat = Some "google-drive" -> rest !! 1%nat = Some "open" ->
    forall err s',
      handleGoogleDriveAction env (Some "open") (rest !! 2%nat) s2
        = (Throw err, s') ->
      _stateInfoHandler env info s = (Throw err, s') /\
      stages s' = stages s2).
  { intros Hsrc Hact err s' Hthrow.
    rewrite bool_decide_eq_true_2, Hact, Hthrow in Hrun by done.
    split; [exact Hrun|].
    pose proof (handleGoogleDriveAction_stages env (Some "open")
                  (rest !! 2%nat) s2) as Hst.
    by rewrite Hthrow in Hst. }
  split; [|split; [|exact Hpropagate]].
  - intros Hunknown.
    destruct (decide (rest !! 0%nat = Some "google-drive")) as [Hsrc|Hsrc].
    + destruct Hunknown as [?|Hact]; [done|].
      rewrite bool_decide_eq_true_2 in Hrun by done.
      unfold handleGoogleDriveAction in Hrun.
      rewrite bool_decide_eq_false_2 in Hrun by done.
      cbn in Hrun. eexists _, _. split; [exact Hrun|].
      cbn. by rewrite <- !app_assoc.
    + rewrite bool_decide_eq_false_2 in Hrun by done.
      cbn in Hrun. eexists _, _. split; [exact Hrun|].
      cbn. by rewrite <- !app_assoc.
  - intros Hsrc Hact e Hfail.
    destruct (handleGoogleDriveAction_failure env (rest !! 2%nat) s2 e Hfail)
      as (err & s' & Hthrow & Herr).
    destruct (Hpropagate Hsrc Hact err s' Hthrow) as [Hseq Hst].
    exists err, s'. split; [done|]. split; [done|]. split; [done|].
    split; [|done].
    rewrite Hst. by apply (before_start_path_stage env info s).
Qed.

Lemma protocol_action_outcomes_witness :
  let env := calm_env None in
  let e := newError "Google drive did not return any data." in
  let s2 := snd (before_start_path env unknown_action_info init) in
  let t2 := snd (before_start_path env drive_open_info init) in
  (before_start_path env unknown_action_info init = (Ok (), s2) /\
   startPath (initConfig s2)
     = Some "file-protocol-action/dropbox/open/abc123" /\
   split_slash "file-protocol-action/dropbox/open/abc123"
     = "file-protocol-action" :: ["dropbox"; "open"; "abc123"] /\
   exists w s3,
     _stateInfoHandler env unknown_action_info init = (Ok (), s3) /\
     trace s3 = trace s2 ++ [ConsoleWarn w] ++ ready_events env /\
     stages s3 = stages s2 ++ [Ready]) /\
  (before_start_path env drive_open_info init = (Ok (), t2) /\
   startPath (initConfig t2)
     = Some "file-protocol-action/google-drive/open/abc123" /\
   split_slash "file-protocol-action/google-drive/open/abc123"
     = "file-protocol-action" :: ["google-drive"; "open"; "abc123"] /\
   drive_open_failure env (Some "abc123") e /\
   exists s',
     handleGoogleDriveAction env (Some "open") (Some "abc123") t2
       = (Throw e, s') /\
     _stateInfoHandler env drive_open_info init = (Throw e, s') /\
     stages s' = stages t2 /\
     last (stages s') = Some PathResolved).
Proof.
  intros env e s2 t2. split.
  - assert (H1 : before_start_path env unknown_action_info init
                 = (Ok (), s2))
      by (vm_compute; reflexivity).
    assert (H2 : startPath (initConfig s2)
                 = Some "file-protocol-action/dropbox/open/abc123")
      by reflexivity.
    assert (H3 : split_slash "file-protocol-action/dropbox/open/abc123"
                 = "file-protocol-action" :: ["dropbox"; "open"; "abc123"])
      by reflexivity.
    split; [exact H1|]. split; [exact H2|]. split; [exact H3|].
    apply (proj1 (protocol_action_outcomes env unknown_action_info init s2
                    _ _ H1 H2 H3)).
    left. discriminate.
  - assert (H1 : before_start_path env drive_open_info init = (Ok (), t2))
      by (vm_compute; reflexivity).
    assert (H2 : startPath (initConfig t2)
                 = Some "file-protocol-action/google-drive/open/abc123")
      by reflexivity.
    assert (H3 : split_slash "file-protocol-action/google-drive/open/abc123"
                 = "file-protocol-action"
                     :: ["google-drive"; "open"; "abc123"])
      by reflexivity.
    assert (Hfail : drive_open_failure env (Some "abc123") e)
      by (apply (drive_no_data env (Some "abc123") None); reflexivity).
    split; [exact H1|]. split; [exact H2|]. split; [exact H3|].
    split; [exact Hfail|].
    destruct (proj1 (proj2 (protocol_action_outcomes env drive_open_info
                              init t2 _ _ H1 H2 H3))
                eq_refl eq_refl e Hfail)
      as (err & s' & Hthrow & Hseq & Hst & Hlast & Herr).
    rewrite (Herr eq_refl eq_refl (fun _ => eq_refl)) in Hthrow, Hseq.
    exists s'. split; [exact Hthrow|]. split; [exact Hseq|].
    split; [exact Hst | exact Hlast].
Defined.

(** C4 fails as stated: with a Drive that returns no data, or data that
    is not JSON, the Drive file-open handler throws, the sequence throws
    the same error and stops at PathResolved. *)
Lemma drive_open_error_stops_startup :
  fst (_stateInfoHandler (calm_env None) drive_open_info init)
    = Throw (newError "Google drive did not return any data.") /\
  stages (snd (_stateInfoHandler (calm_env None) drive_open_info init))
    = [AwaitingConfig; ConfigReceived; Built; PathResolved] /\
  fst (_stateInfoHandler (calm_env (Some "<html>")) drive_open_info init)
    = Throw (newError "Unable to parse received data.") /\
  stages (snd (_stateInfoHandler (calm_env (Some "<html>"))
                                 drive_open_info init))
    = [AwaitingConfig; ConfigReceived; Built; PathResolved] /\
  fst (_stateInfoHandler (calm_env (Some "{}")) drive_open_info init)
    = Ok ().
Proof. repeat split; reflexivity. Qed.

(** A Drive call that fails stops the sequence in the same way, with the
    error of the call. *)
Example drive_call_error_stops_startup :
  let e := newError "Request failed" in
  fst (_stateInfoHandler (failing_drive_env e) drive_open_info init)
    = Throw e /\
  stages (snd (_stateInfoHandler (failing_drive_env e) drive_open_info init))
    = [AwaitingConfig; ConfigReceived; Built; PathResolved] /\
  drive_open_failure (failing_drive_env e) (Some "abc123") e.
Proof.
  intros e. split; [reflexivity|]. split; [reflexivity|].
  by apply drive_call_fails.
Qed.

Example drive_open_trace :
  trace (snd (_stateInfoHandler (calm_env (Some "<html>"))
                                drive_open_info init)) =
    [ IpcSend "window-state-request" [];
      WorkspaceObserve None; PrefsLoad; ImportModule;
      CreateApp (mkPreferences None []);
      Invoke App "initApplication" []; Invoke App "initTutorial" [];
      AppendApp; LoadTheme None; PrefsLoad;
      SetLoadingInfo "Loading file from Google Drive";
      DriveGetFile (Some "abc123");
      ConsoleWarnError (mkError "SyntaxError" "Unexpected token");
      Invoke App "notifyError" [VStr "Unexpected token"] ].
Proof. reflexivity. Qed.

End Lifecycle.

(** ** More on the call correlator *)
Module CorrelatorMore.
Import ArcBase JsFacts Correlator Scenarios.

(** One step of a well-paired completion, for the inductions below. *)
Lemma complete_step k e args s :
  consistent s -> k ∈ map id (_promises s) ->
  exists s1,
    _ipcPromiseCallback k e args s = (Ok (), s1) /\
    consistent s1 /\
    map id (_promises s1) = remove_first k (map id (_promises s)) /\
    length (heap s1) = length (heap s).
Proof.
  intros Hs Hin.
  destruct (pending_split k _ Hin) as (l1 & p & l2 & Hl & Hl1 & Hp).
  rewrite (callback_found k e args s l1 p l2 Hl Hl1 Hp).
  eexists. split; [reflexivity|].
  assert (Hpend : heap s !! target p = Some (mkPromise Pending 0)).
  { destruct Hs as [_ Hall]. rewrite Forall_forall in Hall.
    apply Hall. rewrite Hl. apply elem_of_app. right. by left. }
  assert (Hheap : heap (settle (target p) (spec_settlement e args)
                          (write_log (if e then LogRejecting else LogResolving)
                             (set_promises (l1 ++ l2)
                                (write_log (LogReceived k e args) s)))) =
                  <[target p := mkPromise (spec_settlement e args) 1]> (heap s))
    by (by rewrite settle_pending).
  split; [|split].
  - apply (consistent_complete s l1 p l2 (spec_settlement e args)); try done.
    by rewrite settle_promises.
  - rewrite settle_promises. cbn [_promises set_promises write_log].
    rewrite Hl, <- Hp. by rewrite remove_first_split by (by rewrite Hp).
  - by rewrite Hheap, length_insert.
Qed.

Lemma run_Complete_ok k e args ops s s1 :
  _ipcPromiseCallback k e args s = (Ok (), s1) ->
  run (Complete k e args :: ops) s = run ops s1.
Proof. intros H. cbn [run]. by rewrite H. Qed.

Lemma run_throws_unpaired ops : forall s,
  consistent s ->
  well_paired (map id (_promises s)) ops = false ->
  exists s', run ops s = (Throw (newError "Promise not found"), s').
Proof.
  induction ops as [|o ops IH]; intros s Hs Hwp; [done|].
  destruct o as [k | k e args].
  - simpl in Hwp. rewrite run_Issue.
    destruct (IH (snd (appendPromise k s))) as [s' Hrun].
    + by apply consistent_appendPromise.
    + cbn. by rewrite map_app.
    + rewrite Hrun. by eexists.
  - simpl in Hwp. destruct (decide (k ∈ map id (_promises s))) as [Hin|Hout].
    + rewrite bool_decide_eq_true_2 in Hwp by done. simpl in Hwp.
      destruct (complete_step k e args s Hs Hin)
        as (s1 & Hcb & Hs1 & Hids & _).
      rewrite (run_Complete_ok _ _ _ _ _ _ Hcb).
      apply IH; [done|]. by rewrite Hids.
    + cbn [run]. rewrite (callback_missing k e args s Hout). by eexists.
Qed.

(** X1.  A sequence of issue/complete operations runs to its end from the
    constructor's state exactly when every completion finds its id
    pending; otherwise the run stops with [Error: Promise not found]. *)
Theorem run_succeeds_iff_well_paired (ops : list op) :
  ((exists outs s', run ops init = (Ok outs, s')) <->
   well_paired [] ops = true) /\
  ((exists s', run ops init = (Throw (newError "Promise not found"), s')) <->
   well_paired [] ops = false).
Proof.
  destruct (well_paired [] ops) eqn:Hwp.
  - destruct (run_correlates ops init consistent_init Hwp)
      as (outs & s' & Hrun & _).
    split; split; try done.
    + intros _. by exists outs, s'.
    + intros [s2 H2]. rewrite Hrun in H2. discriminate.
  - destruct (run_throws_unpaired ops init consistent_init Hwp) as [s' Hrun].
    split; split; try done.
    + intros (outs & s2 & H2). rewrite Hrun in H2. discriminate.
    + intros _. by exists s'.
Qed.

Lemma run_pending ops : forall s,
  consistent s ->
  well_paired (map id (_promises s)) ops = true ->
  exists outs s',
    run ops s = (Ok outs, s') /\
    map id (_promises s') = pending_after (map id (_promises s)) ops /\
    length (heap s') = (length (heap s) + length (issue_ids ops))%nat /\
    _ipcRequestId s' = _ipcRequestId s.
Proof.
  induction ops as [|o ops IH]; intros s Hs Hwp.
  - exists [], s. simpl. repeat split; try done; lia.
  - destruct o as [k | k e args].
    + simpl in Hwp. rewrite run_Issue.
      destruct (IH (snd (appendPromise k s)))
        as (outs & s' & Hrun & Hpend & Hlen & Hid).
      * by apply consistent_appendPromise.
      * cbn. by rewrite map_app.
      * rewrite Hrun. eexists _, s'. split; [done|].
        cbn in Hpend, Hlen, Hid. rewrite map_app in Hpend.
        rewrite length_app in Hlen. simpl in Hlen.
        split; [done|]. split; [|done]. simpl. lia.
    + simpl in Hwp. apply andb_true_iff in Hwp as [Hin Hwp].
      apply bool_decide_eq_true in Hin.
      destruct (complete_step k e args s Hs Hin)
        as (s1 & Hcb & Hs1 & Hids & Hlen1).
      rewrite (run_Complete_ok _ _ _ _ _ _ Hcb).
      destruct (IH s1 Hs1) as (outs & s' & Hrun & Hpend & Hlen & Hid).
      { by rewrite Hids. }
      exists outs, s'. split; [done|]. rewrite Hpend, Hids, Hlen, Hlen1.
      split; [done|]. split; [done|]. rewrite Hid.
      pose proof Hin as Hin'.
      destruct (pending_split k _ Hin') as (l1 & p & l2 & Hl & Hl1 & Hp).
      rewrite (callback_found k e args s l1 p l2 Hl Hl1 Hp) in Hcb.
      injection Hcb as <-. unfold settle.
      by destruct (heap _ !! _).
Qed.

(** X2.  After a well-paired sequence of operations the pending calls are
    the ids issued and not completed, oldest first; the run created one
    promise per [Issue] and none otherwise, and left the id counter
    alone. *)
Theorem run_leaves_pending (ops : list op) :
  well_paired [] ops = true ->
  exists outs s',
    run ops init = (Ok outs, s') /\
    map id (_promises s') = pending_after [] ops /\
    length (heap s') = length (issue_ids ops) /\
    _ipcRequestId s' = 0.
Proof.
  intros Hwp.
  destruct (run_pending ops init consistent_init Hwp)
    as (outs & s' & Hrun & Hpend & Hlen & Hid).
  by exists outs, s'.
Qed.

Lemma run_leaves_pending_witness :
  let ops := [Issue 1; Issue 2; Complete 1 false []; Issue 3] in
  well_paired [] ops = true /\
  exists outs s',
    run ops init = (Ok outs, s') /\
    map id (_promises s') = pending_after [] ops /\
    length (heap s') = length (issue_ids ops) /\
    _ipcRequestId s' = 0.
Proof.
  intros ops. split; [reflexivity|].
  exact (run_leaves_pending ops eq_refl).
Defined.

(** X3.  A response is accepted once: after the completion of the only
    pending call with id [k], a second response with that id throws
    [Error: Promise not found] and the promise keeps what the first
    response settled it with. *)
Theorem replayed_completion_throws k (e e' : bool) args args' s l1 p l2 :
  consistent s ->
  _promises s = l1 ++ p :: l2 ->
  k ∉ map id l1 -> id p = k -> k ∉ map id l2 ->
  exists s1 s2,
    _ipcPromiseCallback k e args s = (Ok (), s1) /\
    _ipcPromiseCallback k e' args' s1 =
      (Throw (newError "Promise not found"), s2) /\
    heap s2 !! target p = Some (mkPromise (spec_settlement e args) 1).
Proof.
  intros Hs Hl H1 Hp H2.
  rewrite (callback_found k e args s l1 p l2 Hl H1 Hp).
  eexists _, _. split; [reflexivity|].
  assert (Hpend : heap s !! target p = Some (mkPromise Pending 0)).
  { destruct Hs as [_ Hall]. rewrite Forall_forall in Hall.
    apply Hall. rewrite Hl. apply elem_of_app. right. by left. }
  rewrite callback_missing.
  - split; [reflexivity|]. cbn [heap write_log].
    rewrite settle_pending by exact Hpend. cbn [heap set_promises write_log].
    apply list_lookup_insert_eq, (lookup_lt_Some _ _ _ Hpend).
  - rewrite settle_promises. cbn [_promises set_promises write_log].
    rewrite map_app, elem_of_app. tauto.
Qed.

Lemma replayed_completion_throws_witness :
  let s := snd (appendPromise 7 init) in
  let p := mkPendingCall 7 0%nat in
  consistent s /\
  _promises s = [] ++ p :: [] /\
  (7 ∉ map id []) /\ id p = 7 /\ (7 ∉ map id []) /\
  exists s1 s2,
    _ipcPromiseCallback 7 false [VNum 3] s = (Ok (), s1) /\
    _ipcPromiseCallback 7 true [VStr "late"] s1 =
      (Throw (newError "Promise not found"), s2) /\
    heap s2 !! target p =
      Some (mkPromise (spec_settlement false [VNum 3]) 1).
Proof.
  intros s p.
  assert (Hs : consistent s)
    by (apply consistent_appendPromise, consistent_init).
  assert (Hnil : 7 ∉ map id []) by apply not_elem_of_nil.
  split; [exact Hs|]. split; [reflexivity|]. split; [exact Hnil|].
  split; [reflexivity|]. split; [exact Hnil|].
  exact (replayed_completion_throws 7 false true [VNum 3] [VStr "late"] s
           [] p [] Hs eq_refl Hnil eq_refl Hnil).
Defined.

End CorrelatorMore.

(** ** More on the debounce registry *)
Module DebounceMore.
Import ArcBase JsFacts Debounce.

Lemma filter_key_middle {A B} `{EqDecision B} (f : A -> B) l1 x l2 :
  NoDup (map f (l1 ++ x :: l2)) ->
  filter (fun y => f y <> f x) (l1 ++ x :: l2) = l1 ++ l2.
Proof.
  rewrite map_app. simpl. intros Hnd.
  apply NoDup_app in Hnd as (_ & Hdisj & Hnd2).
  apply NoDup_cons in Hnd2 as [Hx2 _].
  rewrite filter_app, filter_cons_False by (intros Hc; by apply Hc).
  rewrite !filter_all; [done| |].
  - apply Forall_forall. intros u Hu Heq. apply Hx2. rewrite <- Heq.
    apply list_elem_of_fmap. by exists u.
  - apply Forall_forall. intros u Hu Heq. apply (Hdisj (f u)).
    + apply list_elem_of_fmap. by exists u.
    + rewrite Heq. by left.
Qed.

Lemma map_filter_key {A B} `{EqDecision B} (f : A -> B) n (l : list A) :
  map f (filter (fun y => f y <> n) l) = filter (fun m => m <> n) (map f l).
Proof.
  induction l as [|x l IH]; [done|]. simpl.
  destruct (decide (f x = n)) as [Heq|Hne].
  - rewrite !filter_cons_False by (intros Hc; by apply Hc). exact IH.
  - rewrite !filter_cons_True by done. simpl. by rewrite IH.
Qed.

(** What cancelling does to a state whose registry is in order. *)
Lemma cancel_spec n s :
  registry_ok s ->
  registry_ok (cancelDebounce n s) /\
  timers (cancelDebounce n s) =
    filter (fun t => closure_name t <> n) (timers s) /\
  invoked (cancelDebounce n s) = invoked s /\
  now (cancelDebounce n s) = now s.
Proof.
  intros Hs. split; [by apply registry_ok_cancelDebounce|].
  destruct (decide (n ∈ live s)) as [Hin|Hout].
  - destruct (cancelDebounce_live n s Hs Hin)
      as (d1 & d & d2 & t1 & t & t2 & Hd & Ht & H1 & H2 & Hname & ->).
    split; [|done]. cbn [timers set_debouncers set_timers].
    destruct (registry_split s t1 t t2 Hs Ht)
      as (d1' & d' & d2' & Hd' & H1' & [Hn' _] & _).
    assert (Hlen : length d1 = length d1')
      by (rewrite (Forall2_length _ _ _ H1), (Forall2_length _ _ _ H1');
          done).
    rewrite Hd in Hd'. apply app_inj_1 in Hd' as [_ Hd']; [|done].
    injection Hd' as <- _.
    rewrite Ht, <- Hname, Hn'.
    rewrite filter_key_middle; [done|].
    rewrite <- Ht. by apply timer_names_NoDup.
  - rewrite cancelDebounce_absent by done. split; [|done].
    rewrite filter_all; [done|].
    apply Forall_forall. intros t Ht Heq. apply Hout.
    rewrite live_timer_names by done. apply list_elem_of_fmap. by exists t.
Qed.

(** X4.  In every state the object goes through, cancelling a name
    removes that name from the registry and disarms its timer, and touches
    nothing else: the other names stay live in their order, the other
    timers stay armed, no task is invoked; cancelling a name that is not
    live changes nothing at all. *)
Theorem cancelDebounce_removes_only_its_name n s :
  reachable s ->
  live (cancelDebounce n s) = filter (fun m => m <> n) (live s) /\
  timers (cancelDebounce n s) =
    filter (fun t => closure_name t <> n) (timers s) /\
  invoked (cancelDebounce n s) = invoked s /\
  (n ∉ live s -> cancelDebounce n s = s).
Proof.
  intros Hr. apply reachable_registry_ok in Hr.
  destruct (cancel_spec n s Hr) as (Hok & Ht & Hinv & _).
  split; [|split; [done|split; [done|apply cancelDebounce_absent]]].
  rewrite (live_timer_names _ Hok), (live_timer_names _ Hr), Ht.
  apply map_filter_key.
Qed.

Lemma cancelDebounce_removes_only_its_name_witness :
  let s := debounce "save" 2%nat 300 (debounce "ajax-call" 1%nat 2000 init) in
  reachable s /\
  live (cancelDebounce "ajax-call" s) = ["save"] /\
  timers (cancelDebounce "ajax-call" s) =
    filter (fun t => closure_name t <> "ajax-call") (timers s) /\
  invoked (cancelDebounce "ajax-call" s) = invoked s /\
  ("ajax-call" ∉ live s -> cancelDebounce "ajax-call" s = s).
Proof.
  intros s.
  assert (Hr : reachable s) by (do 2 apply reach_debounce; apply reach_init).
  split; [exact Hr|].
  exact (cancelDebounce_removes_only_its_name "ajax-call" s Hr).
Defined.

(** A task scheduled under a free name and left alone runs once, when its
    delay has passed. *)
Lemma schedule_fires n cb time d s :
  registry_ok s -> n ∉ live s -> timer_delay time <= Z.max 0 d ->
  registry_ok (advance d (debounce n cb time s)) /\
  now (advance d (debounce n cb time s)) = now s + Z.max 0 d /\
  invocations n (advance d (debounce n cb time s)) =
    invocations n s ++ [(now s + timer_delay time, cb)] /\
  (n ∉ live (advance d (debounce n cb time s))).
Proof.
  intros Hs Hfree Hd.
  set (s1 := debounce n cb time s).
  set (tn := mkTimer (nextTimerId s) (now s + timer_delay time) n cb).
  assert (Hs1 : registry_ok s1) by (by apply registry_ok_debounce).
  assert (Hn : n ∉ map closure_name (timers s))
    by (by rewrite <- live_timer_names).
  assert (Ht1 : timers s1 = timers s ++ [tn])
    by (unfold s1; by rewrite debounce_free).
  assert (Hnow1 : now s1 = now s)
    by (unfold s1; by rewrite debounce_free).
  assert (Hinv1 : invocations n s1 = invocations n s)
    by (unfold s1; by rewrite debounce_free).
  destruct (advance_spec n d s1 Hs1) as (Hs2 & Hnow & Ht & Hinv).
  rewrite Hnow1, Ht1 in Ht, Hinv. rewrite Hnow1 in Hnow.
  split; [done|]. split; [done|]. split.
  - rewrite Hinv, Hinv1. f_equal.
    rewrite due_invocations_app, due_invocations_absent by done.
    rewrite due_invocations_cons. cbn. rewrite String.eqb_refl.
    destruct (Z.leb_spec (now s + timer_delay time) (now s + Z.max 0 d));
      [done | lia].
  - rewrite live_timer_names, Ht by done.
    rewrite filter_app, filter_cons_False, filter_nil, app_nil_r
      by (cbn; lia).
    by apply filter_names_absent.
Qed.

(** X5.  A task cancelled before the delay of its timer has passed never
    runs, however much time passes afterwards, and its name is free
    again.  The delay of the timer is the delay given when that is
    between 1 and [TIMEOUT_MAX] milliseconds, and one millisecond
    otherwise. *)
Theorem cancelled_task_never_runs s n cb time d1 d2 :
  reachable s -> n ∉ live s -> 0 <= d1 < timer_delay time ->
  let s1 := debounce n cb time s in
  let s2 := advance d1 s1 in
  let s3 := cancelDebounce n s2 in
  let s4 := advance d2 s3 in
  n ∈ live s2 /\ (n ∉ live s3) /\
  invocations n s4 = invocations n s /\ (n ∉ live s4).
Proof.
  intros Hr Hfree Hd1 s1 s2 s3 s4.
  apply reachable_registry_ok in Hr.
  set (tn := mkTimer (nextTimerId s) (now s + timer_delay time) n cb).
  assert (Hs1 : registry_ok s1) by (by apply registry_ok_debounce).
  assert (Hn : n ∉ map closure_name (timers s))
    by (by rewrite <- live_timer_names).
  assert (Ht1 : timers s1 = timers s ++ [tn])
    by (unfold s1; by rewrite debounce_free).
  assert (Hnow1 : now s1 = now s)
    by (unfold s1; by rewrite debounce_free).
  assert (Hinv1 : invocations n s1 = invocations n s)
    by (unfold s1; by rewrite debounce_free).
  destruct (advance_spec n d1 s1 Hs1) as (Hs2 & Hnow2 & Ht2 & Hinv2).
  fold s2 in Hs2, Hnow2, Ht2, Hinv2.
  rewrite Hnow1, Ht1 in Ht2, Hinv2. rewrite Hnow1 in Hnow2.
  rewrite filter_app in Ht2.
  rewrite filter_cons_True, filter_nil in Ht2 by (cbn; lia).
  assert (Hinv2' : invocations n s2 = invocations n s).
  { rewrite Hinv2, Hinv1.
    rewrite due_invocations_app, due_invocations_absent by done.
    rewrite due_invocations_later, app_nil_r; [done|].
    repeat constructor. cbn. lia. }
  destruct (cancel_spec n s2 Hs2) as (Hs3 & Ht3 & Hinv3 & _).
  fold s3 in Hs3, Ht3, Hinv3.
  assert (Hn3 : n ∉ map closure_name (timers s3)).
  { rewrite Ht3. intros Hin. apply list_elem_of_fmap in Hin as (t & -> & Ht).
    by apply list_elem_of_filter in Ht as [Hne _]. }
  destruct (advance_spec n d2 s3 Hs3) as (Hs4 & _ & Ht4 & Hinv4).
  fold s4 in Hs4, Ht4, Hinv4.
  split; [|split; [|split]].
  - rewrite live_timer_names, Ht2, map_app, elem_of_app by done.
    right. by left.
  - by rewrite live_timer_names.
  - rewrite Hinv4, due_invocations_absent, app_nil_r by done.
    unfold invocations. by rewrite Hinv3.
  - rewrite live_timer_names, Ht4 by done. by apply filter_names_absent.
Qed.

Lemma cancelled_task_never_runs_witness :
  let s := init in
  let s1 := debounce "ajax-call" 7%nat 2000 s in
  let s2 := advance 500 s1 in
  let s3 := cancelDebounce "ajax-call" s2 in
  let s4 := advance 5000 s3 in
  reachable s /\ ("ajax-call" ∉ live s) /\ 0 <= 500 < timer_delay 2000 /\
  "ajax-call" ∈ live s2 /\ ("ajax-call" ∉ live s3) /\
  invocations "ajax-call" s4 = invocations "ajax-call" s /\
  ("ajax-call" ∉ live s4).
Proof.
  intros s s1 s2 s3 s4.
  assert (Hf : "ajax-call" ∉ live s) by apply not_elem_of_nil.
  assert (H1 : 0 <= 500 < timer_delay 2000)
    by (change (timer_delay 2000) with 2000; lia).
  split; [exact reach_init|]. split; [exact Hf|]. split; [exact H1|].
  exact (cancelled_task_never_runs s "ajax-call" 7%nat 2000 500 5000
           reach_init Hf H1).
Defined.

(** X6.  Once a task has run its name is free: a task scheduled under the
    same name afterwards runs too, the delay of its timer counted from
    the second call.  The delay of a timer is the delay given when that
    is between 1 and [TIMEOUT_MAX] milliseconds, and one millisecond
    otherwise, so a task never runs in the call that schedules it. *)
Theorem name_can_be_scheduled_again s n cb time cb' time' d1 d2 :
  reachable s -> n ∉ live s ->
  timer_delay time <= Z.max 0 d1 -> timer_delay time' <= Z.max 0 d2 ->
  let s2 := advance d1 (debounce n cb time s) in
  let s4 := advance d2 (debounce n cb' time' s2) in
  invocations n s4 =
    invocations n s ++ [(now s + timer_delay time, cb);
                        (now s + Z.max 0 d1 + timer_delay time', cb')] /\
  (1 <= time <= TIMEOUT_MAX -> 1 <= time' <= TIMEOUT_MAX ->
   invocations n s4 =
     invocations n s ++ [(now s + time, cb);
                         (now s + Z.max 0 d1 + time', cb')]) /\
  (n ∉ live s4).
Proof.
  intros Hr Hfree Hd1 Hd2 s2 s4.
  apply reachable_registry_ok in Hr.
  destruct (schedule_fires n cb time d1 s Hr Hfree Hd1)
    as (Hs2 & Hnow2 & Hinv2 & Hfree2).
  destruct (schedule_fires n cb' time' d2 _ Hs2 Hfree2 Hd2)
    as (_ & _ & Hinv4 & Hfree4).
  assert (Hinv : invocations n s4 =
            invocations n s ++ [(now s + timer_delay time, cb);
                                (now s + Z.max 0 d1 + timer_delay time', cb')]).
  { unfold s4, s2. by rewrite Hinv4, Hinv2, Hnow2, <- app_assoc. }
  split; [done|]. split; [|done].
  intros Ht Ht'. rewrite Hinv.
  by rewrite (timer_delay_as_given time), (timer_delay_as_given time').
Qed.

Lemma name_can_be_scheduled_again_witness :
  let s := init in
  let s2 := advance 300 (debounce "save" 1%nat 250 s) in
  let s4 := advance 100 (debounce "save" 2%nat 100 s2) in
  reachable s /\ ("save" ∉ live s) /\
  timer_delay 250 <= Z.max 0 300 /\ timer_delay 100 <= Z.max 0 100 /\
  invocations "save" s4 =
    invocations "save" s ++ [(now s + timer_delay 250, 1%nat);
                             (now s + Z.max 0 300 + timer_delay 100, 2%nat)] /\
  (1 <= 250 <= TIMEOUT_MAX -> 1 <= 100 <= TIMEOUT_MAX ->
   invocations "save" s4 =
     invocations "save" s ++ [(now s + 250, 1%nat);
                              (now s + Z.max 0 300 + 100, 2%nat)]) /\
  ("save" ∉ live s4).
Proof.
  intros s s2 s4.
  assert (Hf : "save" ∉ live s) by apply not_elem_of_nil.
  assert (H1 : timer_delay 250 <= Z.max 0 300)
    by (change (timer_delay 250) with 250; lia).
  assert (H2 : timer_delay 100 <= Z.max 0 100)
    by (change (timer_delay 100) with 100; lia).
  split; [exact reach_init|]. split; [exact Hf|].
  split; [exact H1|]. split; [exact H2|].
  exact (name_can_be_scheduled_again s "save" 1%nat 250 2%nat 100 300 100
           reach_init Hf H1 H2).
Defined.

Lemma due_invocations_other n m T (l : list Timer) :
  m <> n ->
  due_invocations n T (filter (fun t => closure_name t <> m) l) =
    due_invocations n T l.
Proof.
  intros Hne. induction l as [|t l IH]; [done|].
  destruct (decide (closure_name t = m)) as [Heq|Hneq].
  - rewrite filter_cons_False by (intros Hc; by apply Hc).
    rewrite due_invocations_cons, IH.
    destruct (String.eqb_spec (closure_name t) n); [congruence | done].
  - rewrite filter_cons_True by done.
    by rewrite !due_invocations_cons, IH.
Qed.

(** X7.  Names do not interfere: scheduling or cancelling a task under
    another name changes nothing about when and how often the task of
    name [n] runs. *)
Theorem other_names_do_not_interfere s n m cb time d :
  reachable s -> m <> n ->
  invocations n (advance d (debounce m cb time s)) =
    invocations n (advance d s) /\
  invocations n (advance d (cancelDebounce m s)) =
    invocations n (advance d s).
Proof.
  intros Hr Hne. apply reachable_registry_ok in Hr.
  destruct (advance_spec n d s Hr) as (_ & _ & _ & Hinv).
  split.
  - destruct (decide (m ∈ live s)) as [Hin|Hout].
    { by rewrite debounce_live. }
    pose proof (registry_ok_debounce m cb time s Hr) as Hs1.
    destruct (advance_spec n d _ Hs1) as (_ & _ & _ & Hinv1).
    rewrite Hinv1, Hinv. rewrite debounce_free by done.
    cbn [now timers set_debouncers set_nextTimerId set_timers].
    rewrite due_invocations_app, due_invocations_cons. cbn.
    destruct (String.eqb_spec m n); [done|].
    by rewrite !app_nil_r.
  - destruct (cancel_spec m s Hr) as (Hs1 & Ht1 & Hinv1 & Hnow1).
    destruct (advance_spec n d _ Hs1) as (_ & _ & _ & Hinv2).
    rewrite Hinv2, Hinv, Hnow1, Ht1, due_invocations_other by done.
    unfold invocations. by rewrite Hinv1.
Qed.

Lemma other_names_do_not_interfere_witness :
  let s := debounce "ajax-call" 1%nat 2000 init in
  reachable s /\ "save" <> "ajax-call" /\
  invocations "ajax-call" (advance 3000 (debounce "save" 2%nat 10 s)) =
    invocations "ajax-call" (advance 3000 s) /\
  invocations "ajax-call" (advance 3000 (cancelDebounce "save" s)) =
    invocations "ajax-call" (advance 3000 s).
Proof.
  intros s.
  assert (Hr : reachable s) by (apply reach_debounce, reach_init).
  assert (Hne : "save" <> "ajax-call") by discriminate.
  split; [exact Hr|]. split; [exact Hne|].
  exact (other_names_do_not_interfere s "ajax-call" "save" 2%nat 10 3000
           Hr Hne).
Defined.

(** X8.  Whenever a timer of the registry is armed, its name has an entry
    in [_debouncers] carrying the timer's id, so the lookup in the timer's
    closure never gives [-1]; when the timer runs, the [splice] takes out
    that entry and no other. *)
Theorem armed_timer_has_its_entry s t :
  reachable s -> t ∈ timers s ->
  exists d1 d d2,
    _debouncers s = d1 ++ d :: d2 /\
    name d = closure_name t /\ cancelId d = timerId t /\
    _debounceIndex (closure_name t) s = Z.of_nat (length d1) /\
    _debouncers (fire t s) = d1 ++ d2.
Proof.
  intros Hr Hin. apply reachable_registry_ok in Hr.
  apply list_elem_of_split in Hin as (t1 & t2 & Ht).
  destruct (registry_split s t1 t t2 Hr Ht)
    as (d1 & d & d2 & Hd & H1 & [Hname Hid] & H2 & Hfresh).
  exists d1, d, d2. split; [done|]. split; [done|]. split; [done|].
  split.
  - apply (_debounceIndex_first _ s d1 d d2); [done| by rewrite <- Hname |done].
  - destruct (fire_split s t1 t t2 Hr Ht)
      as (d1' & d' & d2' & Hd' & H1' & H2' & ->).
    cbn [_debouncers set_invoked set_debouncers].
    assert (Hlen : length d1 = length d1')
      by (rewrite (Forall2_length _ _ _ H1), (Forall2_length _ _ _ H1');
          done).
    rewrite Hd in Hd'. apply app_inj_1 in Hd' as [-> Hd']; [|done].
    by injection Hd' as _ ->.
Qed.

Lemma armed_timer_has_its_entry_witness :
  let s := debounce "save" 2%nat 300 (debounce "ajax-call" 1%nat 2000 init) in
  let t := mkTimer 0 2000 "ajax-call" 1%nat in
  reachable s /\ t ∈ timers s /\
  exists d1 d d2,
    _debouncers s = d1 ++ d :: d2 /\
    name d = closure_name t /\ cancelId d = timerId t /\
    _debounceIndex (closure_name t) s = Z.of_nat (length d1) /\
    _debouncers (fire t s) = d1 ++ d2.
Proof.
  intros s t.
  assert (Hr : reachable s) by (do 2 apply reach_debounce; apply reach_init).
  assert (Hin : t ∈ timers s) by (by left).
  split; [exact Hr|]. split; [exact Hin|].
  exact (armed_timer_has_its_entry s t Hr Hin).
Defined.

End DebounceMore.

(** ** More on the start-up sequence *)
Module LifecycleMore.
Import ArcInit Lifecycle Scenarios.

Ltac run_all :=
  unfold _stateInfoHandler, before_upgrade, initApp, _createApp, _setupApp,
    upgradeApp, prefProxy_load, reportFatalError, app_set, app_call, invoke,
    bind, try_catch, set_initConfig, set_created, append_app, enter, get,
    emit, count_pref_load, lift, throw, ret;
  cbn [trace created app_element initConfig pref_loads stages fst snd].

(** [initApp] when the preferences load and the application element is
    built: everything it does, whatever the theme loader answers. *)
Lemma initApp_builds env s cnf :
  created s = false ->
  prefs_load env (pref_loads s) = Ok cnf ->
  import_module env = Ok () ->
  handler_throws env App "initApplication" [] = None ->
  handler_throws env App "initTutorial" [] = None ->
  exists s',
    initApp env s = (Ok (), s') /\
    created s' = true /\ app_element s' = true /\
    stages s' = stages s /\
    trace s' =
      trace s ++
      [ WorkspaceObserve (workspaceFile (initConfig s)); PrefsLoad;
        ImportModule; CreateApp cnf; Invoke App "initApplication" [];
        Invoke App "initTutorial" []; AppendApp ] ++
      (if bool_decide (effective_theme s cnf = Some anypoint_theme)
       then [AppSet "compatibility" (VBool true)] else []) ++
      [LoadTheme (effective_theme s cnf)] ++
      match load_theme env (effective_theme s cnf) with
      | Ok _ => []
      | Throw e => [ConsoleError e]
      end.
Proof.
  intros Hc Hp Hi H1 H2. unfold effective_theme. run_all.
  rewrite Hp, Hc. cbn [fst snd]. rewrite Hi, H1, H2.
  cbn [trace created app_element initConfig pref_loads stages fst snd theme
       upgrades].
  destruct (darkMode (initConfig s));
    cbn [theme]; case_bool_decide;
    cbn [trace created app_element initConfig pref_loads stages];
    destruct (load_theme env _) as [[]|e];
    eexists; (split; [reflexivity|]);
    cbn [trace created app_element initConfig pref_loads stages];
    repeat split; by rewrite <- ?app_assoc.
Qed.

(** X9.  A theme that fails to load does not stop [initApp]: when the
    preferences load and the application element is built, [initApp]
    returns normally whatever the theme loader answers; a failure of the
    loader is written to the console and no [fatal-error] is sent. *)
Theorem theme_failure_is_not_fatal env s cnf :
  created s = false ->
  prefs_load env (pref_loads s) = Ok cnf ->
  import_module env = Ok () ->
  handler_throws env App "initApplication" [] = None ->
  handler_throws env App "initTutorial" [] = None ->
  exists s',
    initApp env s = (Ok (), s') /\
    created s' = true /\ app_element s' = true /\
    (forall e, load_theme env (effective_theme s cnf) = Throw e ->
               last (trace s') = Some (ConsoleError e)) /\
    (forall args, IpcSend "fatal-error" args ∈ trace s' ->
                  IpcSend "fatal-error" args ∈ trace s).
Proof.
  intros Hc Hp Hi H1 H2.
  destruct (initApp_builds env s cnf Hc Hp Hi H1 H2)
    as (s' & Hrun & Hcr & Happ & _ & Htr).
  exists s'. split; [done|]. split; [done|]. split; [done|]. split.
  - intros e He. rewrite Htr, He, !app_assoc. apply last_snoc.
  - intros args. rewrite Htr, !elem_of_app, !elem_of_cons.
    intros [?|[Hin|[Hin|[Hin|Hin]]]]; [done| | | |].
    + repeat (destruct Hin as [Hin|Hin]; [discriminate|]).
      by apply elem_of_nil in Hin.
    + case_bool_decide; [|by apply elem_of_nil in Hin].
      apply list_elem_of_singleton in Hin. discriminate.
    + destruct Hin as [Hin|Hin]; [discriminate|].
      by apply elem_of_nil in Hin.
    + destruct (load_theme env _); [by apply elem_of_nil in Hin|].
      apply list_elem_of_singleton in Hin. discriminate.
Qed.

Lemma theme_failure_is_not_fatal_witness :
  let e := newError "Theme file not found" in
  let cnf := mkPreferences (Some "custom-theme") [] in
  let env := themed_env cnf (Throw e) in
  created init = false /\
  prefs_load env (pref_loads init) = Ok cnf /\
  import_module env = Ok () /\
  handler_throws env App "initApplication" [] = None /\
  handler_throws env App "initTutorial" [] = None /\
  exists s',
    initApp env init = (Ok (), s') /\
    created s' = true /\ app_element s' = true /\
    (forall e', load_theme env (effective_theme init cnf) = Throw e' ->
                last (trace s') = Some (ConsoleError e')) /\
    (forall args, IpcSend "fatal-error" args ∈ trace s' ->
                  IpcSend "fatal-error" args ∈ trace init).
Proof.
  intros e cnf env. repeat (split; [reflexivity|]).
  exact (theme_failure_is_not_fatal env init cnf eq_refl eq_refl eq_refl
           eq_refl eq_refl).
Defined.

(** X10.  In dark mode [initApp] loads the dark theme whatever theme the
    preferences name, and does not switch the application element to
    compatibility mode, not even when the preferences name the anypoint
    theme. *)
Theorem dark_mode_overrides_theme env s cnf :
  darkMode (initConfig s) = true ->
  created s = false ->
  prefs_load env (pref_loads s) = Ok cnf ->
  import_module env = Ok () ->
  handler_throws env App "initApplication" [] = None ->
  handler_throws env App "initTutorial" [] = None ->
  exists s',
    initApp env s = (Ok (), s') /\
    LoadTheme (Some dark_theme) ∈ trace s' /\
    (forall th, LoadTheme th ∈ trace s' -> LoadTheme th ∉ trace s ->
                th = Some dark_theme) /\
    (forall v, AppSet "compatibility" v ∈ trace s' ->
               AppSet "compatibility" v ∈ trace s).
Proof.
  intros Hd Hc Hp Hi H1 H2.
  destruct (initApp_builds env s cnf Hc Hp Hi H1 H2)
    as (s' & Hrun & _ & _ & _ & Htr).
  unfold effective_theme in Htr. rewrite Hd in Htr.
  rewrite bool_decide_eq_false_2 in Htr by discriminate.
  exists s'. split; [done|]. rewrite Htr. split; [|split].
  - rewrite !elem_of_app. right. right. right. left. by left.
  - intros th. rewrite !elem_of_app, !elem_of_cons.
    intros [?|[Hin|[Hin|[Hin|Hin]]]] Hout; [done| | | |].
    + repeat (destruct Hin as [Hin|Hin]; [discriminate|]).
      by apply elem_of_nil in Hin.
    + by apply elem_of_nil in Hin.
    + destruct Hin as [Hin|Hin]; [by injection Hin|].
      by apply elem_of_nil in Hin.
    + destruct (load_theme env _); [by apply elem_of_nil in Hin|].
      apply list_elem_of_singleton in Hin. discriminate.
  - intros v. rewrite !elem_of_app, !elem_of_cons.
    intros [?|[Hin|[Hin|[Hin|Hin]]]]; [done| | | |].
    + repeat (destruct Hin as [Hin|Hin]; [discriminate|]).
      by apply elem_of_nil in Hin.
    + by apply elem_of_nil in Hin.
    + destruct Hin as [Hin|Hin]; [discriminate|].
      by apply elem_of_nil in Hin.
    + destruct (load_theme env _); [by apply elem_of_nil in Hin|].
      apply list_elem_of_singleton in Hin. discriminate.
Qed.

Lemma dark_mode_overrides_theme_witness :
  let env := themed_env anypoint_preferences (Ok ()) in
  darkMode (initConfig dark_window) = true /\
  created dark_window = false /\
  prefs_load env (pref_loads dark_window) = Ok anypoint_preferences /\
  import_module env = Ok () /\
  handler_throws env App "initApplication" [] = None /\
  handler_throws env App "initTutorial" [] = None /\
  exists s',
    initApp env dark_window = (Ok (), s') /\
    LoadTheme (Some dark_theme) ∈ trace s' /\
    (forall th, LoadTheme th ∈ trace s' -> LoadTheme th ∉ trace dark_window ->
                th = Some dark_theme) /\
    (forall v, AppSet "compatibility" v ∈ trace s' ->
               AppSet "compatibility" v ∈ trace dark_window).
Proof.
  intros env. repeat (split; [reflexivity|]).
  exact (dark_mode_overrides_theme env dark_window anypoint_preferences
           eq_refl eq_refl eq_refl eq_refl eq_refl eq_refl).
Defined.

(** X11.  A failure of the module import inside [_createApp] is fatal in
    the same way as a failure of the preferences: it is written to the
    console, sent as [fatal-error] with its message, and thrown by the
    handler; no application element is created, [created] stays false and
    the sequence stops in ConfigReceived. *)
Theorem import_failure_is_fatal env info s cnf e :
  created s = false ->
  prefs_load env (pref_loads s) = Ok cnf ->
  import_module env = Throw e ->
  exists s',
    _stateInfoHandler env info s = (Throw e, s') /\
    trace s' =
      trace s ++ [WorkspaceObserve (workspaceFile (default emptyConfig info));
                  PrefsLoad; ImportModule;
                  ConsoleError e;
                  IpcSend "fatal-error" [VStr (message e)]] /\
    created s' = false /\ app_element s' = app_element s /\
    stages s' = stages s ++ [ConfigReceived].
Proof.
  intros Hc Hp Hi. eexists. split.
  - run_all. rewrite Hp, Hc. cbn [fst snd]. rewrite Hi. reflexivity.
  - cbn. by rewrite <- !app_assoc.
Qed.

Lemma import_failure_is_fatal_witness :
  let e := newError "Failed to fetch dynamically imported module" in
  let env := failing_import_env e in
  created init = false /\
  prefs_load env (pref_loads init) = Ok (mkPreferences None []) /\
  import_module env = Throw e /\
  exists s',
    _stateInfoHandler env None init = (Throw e, s') /\
    trace s' =
      trace init ++ [WorkspaceObserve (workspaceFile (default emptyConfig None));
                     PrefsLoad; ImportModule;
                     ConsoleError e;
                     IpcSend "fatal-error" [VStr (message e)]] /\
    created s' = false /\ app_element s' = app_element init /\
    stages s' = stages init ++ [ConfigReceived].
Proof.
  intros e env. repeat (split; [reflexivity|]).
  exact (import_failure_is_fatal env None init (mkPreferences None []) e
           eq_refl eq_refl eq_refl).
Defined.

(** The handler stops where the upgrade check throws. *)
Lemma _stateInfoHandler_upgrade_throws env info s s1 e s2 :
  before_upgrade env info s = (Ok (), s1) ->
  upgradeApp env s1 = (Throw e, s2) ->
  _stateInfoHandler env info s = (Throw e, s2) /\
  exists pre, stages s1 = pre ++ [Built].
Proof.
  unfold _stateInfoHandler, before_upgrade, bind, set_initConfig, enter.
  cbv beta iota zeta.
  destruct (initApp env _) as [[[]|err] s0]; [|discriminate].
  intros [= <-]. cbn [stages]. intros ->. split; [done|]. by eexists.
Qed.

(** What [upgradeApp] adds to the trace is no message across the
    boundary, and it enters no stage. *)
Lemma upgradeApp_quiet env s :
  stages (snd (upgradeApp env s)) = stages s /\
  forall topic args,
    IpcSend topic args ∈ trace (snd (upgradeApp env s)) ->
    IpcSend topic args ∈ trace s.
Proof.
  unfold upgradeApp, prefProxy_load, bind, count_pref_load, lift, emit, ret.
  destruct (prefs_load env (pref_loads s)) as [cnf|e]; cbn [fst snd].
  - destruct (get_upgrades env (upgrades cnf)) as [[|u ups]|];
      cbn [fst snd stages trace];
      try destruct (run_upgrade env _); cbn [fst snd stages trace];
      (split; [done|]); intros topic args;
      rewrite ?elem_of_app, ?elem_of_cons, ?elem_of_nil;
      intros H; repeat (destruct H as [H|H]; try done; try discriminate).
  - cbn [fst snd stages trace]. split; [done|]. intros topic args.
    rewrite elem_of_app, elem_of_cons, elem_of_nil.
    intros [?|[?|[]]]; [done | discriminate].
Qed.

(** X12.  A failure of the upgrade step -- of its reload of the
    preferences or of the upgrade itself -- is thrown by the handler and
    stops the sequence at Built; unlike a failure of the first load it is
    not reported: no [fatal-error] message is sent for it. *)
Theorem upgrade_failure_stops_at_Built env info s s1 e :
  before_upgrade env info s = (Ok (), s1) ->
  fst (upgradeApp env s1) = Throw e ->
  exists s',
    _stateInfoHandler env info s = (Throw e, s') /\
    stages s' = stages s1 /\
    last (stages s') = Some Built /\
    (forall args, IpcSend "fatal-error" args ∈ trace s' ->
                  IpcSend "fatal-error" args ∈ trace s1).
Proof.
  intros Hb Hu.
  destruct (upgradeApp env s1) as [r s2] eqn:Hup. simpl in Hu. subst r.
  destruct (_stateInfoHandler_upgrade_throws env info s s1 e s2 Hb Hup)
    as (Hrun & pre & Hpre).
  destruct (upgradeApp_quiet env s1) as (Hst & Hsend).
  rewrite Hup in Hst, Hsend. cbn [snd] in Hst, Hsend.
  exists s2. split; [done|]. split; [done|]. split.
  - rewrite Hst, Hpre. apply last_snoc.
  - intros args. apply Hsend.
Qed.

Lemma upgrade_failure_stops_at_Built_witness :
  let e := newError "Upgrade to v15 failed" in
  let env := failing_upgrade_env e in
  let s1 := snd (before_upgrade env None init) in
  before_upgrade env None init = (Ok (), s1) /\
  fst (upgradeApp env s1) = Throw e /\
  exists s',
    _stateInfoHandler env None init = (Throw e, s') /\
    stages s' = stages s1 /\
    last (stages s') = Some Built /\
    (forall args, IpcSend "fatal-error" args ∈ trace s' ->
                  IpcSend "fatal-error" args ∈ trace s1).
Proof.
  intros e env s1.
  assert (H1 : before_upgrade env None init = (Ok (), s1))
    by (vm_compute; reflexivity).
  assert (H2 : fst (upgradeApp env s1) = Throw e)
    by (vm_compute; reflexivity).
  split; [exact H1|]. split; [exact H2|].
  exact (upgrade_failure_stops_at_Built env None init s1 e H1 H2).
Defined.

(** [_createApp] when it returns normally. *)
Lemma _createApp_done env c s s1 :
  _createApp env c s = (Ok (), s1) -> created s1 = true.
Proof.
  unfold _createApp, _setupApp, invoke, bind, get, emit, lift, throw, ret,
    append_app, set_created.
  destruct (created s) eqn:Hc; [by intros [= <-]|].
  cbn [fst snd].
  destruct (import_module env) as [[]|?]; [|discriminate].
  destruct (handler_throws env App "initApplication" []); [discriminate|].
  destruct (handler_throws env App "initTutorial" []); [discriminate|].
  by intros [= <-].
Qed.

(** X13.  The application element is created once: after a call of
    [_createApp] that returned normally, [created] is set and every
    further call returns at once, without importing the module or creating
    an element again. *)
Theorem createApp_creates_once env c c' s s1 :
  _createApp env c s = (Ok (), s1) ->
  created s1 = true /\ _createApp env c' s1 = (Ok (), s1).
Proof.
  intros H. apply _createApp_done in H. split; [done|].
  unfold _createApp, bind, get. by rewrite H.
Qed.

Lemma createApp_creates_once_witness :
  let env := calm_env None in
  let c := mkPreferences None [] in
  let s1 := snd (_createApp env c init) in
  _createApp env c init = (Ok (), s1) /\
  created s1 = true /\
  _createApp env (mkPreferences (Some dark_theme) []) s1 = (Ok (), s1).
Proof.
  intros env c s1.
  assert (H : _createApp env c init = (Ok (), s1))
    by (vm_compute; reflexivity).
  split; [exact H|].
  exact (createApp_creates_once env c (mkPreferences (Some dark_theme) [])
           init s1 H).
Defined.

(** *** Start paths *)

Lemma split_slash_nonnil s : split_slash s <> [].
Proof.
  destruct s as [|c r]; [done|]. simpl.
  destruct (Ascii.eqb c "/"); [done|]. by destruct (split_slash r).
Qed.

(** The first part of a split string is the string up to its first
    slash. *)
Lemma split_head path : forall h rest,
  split_slash path = h :: rest ->
  (path = h /\ rest = []) \/
  (exists r, path = h +:+ "/" +:+ r /\ rest = split_slash r).
Proof.
  induction path as [|c r IH]; intros h rest; simpl.
  - intros [= <- <-]. by left.
  - destruct (Ascii.eqb_spec c "/") as [->|Hc].
    + intros [= <- <-]. right. by exists r.
    + destruct (split_slash r) as [|h' t'] eqn:Hr.
      { by apply split_slash_nonnil in Hr. }
      intros [= <- <-].
      destruct (IH h' t' eq_refl) as [[-> ->] | (r0 & -> & ->)].
      * by left.
      * right. by exists r0.
Qed.

Lemma split_slash_free a :
  slash_free a = true -> split_slash a = [a].
Proof.
  induction a as [|c a IH]; simpl; [done|].
  destruct (Ascii.eqb c "/"); [done|]. simpl. intros H. by rewrite IH.
Qed.

Lemma split_slash_segment a b :
  slash_free a = true -> split_slash (a +:+ "/" +:+ b) = a :: split_slash b.
Proof.
  induction a as [|c a IH]; simpl; [done|].
  destruct (Ascii.eqb c "/"); [done|]. simpl. intros H. by rewrite IH.
Qed.

(** X14.  A start path that is not empty and is neither
    [file-protocol-action] nor begins with [file-protocol-action/] becomes
    the in-app navigation state [#<path>]: one [history.pushState] and
    nothing else, no protocol action and no warning. *)
Theorem plain_start_path_navigates env s path :
  startPath (initConfig s) = Some path ->
  path <> "" ->
  path <> "file-protocol-action" ->
  (forall r, path <> "file-protocol-action/" +:+ r) ->
  processInitialPath env s = (Ok (), logged [PushState ("#" +:+ path)] s).
Proof.
  intros Hstart Hne Hfpa Hpre. unfold processInitialPath, bind, get.
  rewrite Hstart.
  assert (Hf : falsy (Some path) = false) by (by destruct path).
  rewrite Hf. change (default "" (Some path)) with path.
  rewrite bool_decide_eq_false_2; [done|].
  intros Hhead. destruct (split_slash path) as [|h rest] eqn:Hsplit; [done|].
  injection Hhead as ->.
  destruct (split_head path _ _ Hsplit) as [[-> _] | (r & -> & _)].
  - done.
  - by apply (Hpre r).
Qed.

Lemma plain_start_path_navigates_witness :
  let s := mkState [] true true
                   (mkInitConfig None false (Some "saved/xyz")) 2
                   [AwaitingConfig; ConfigReceived; Built; PathResolved] in
  startPath (initConfig s) = Some "saved/xyz" /\
  "saved/xyz" <> "" /\
  "saved/xyz" <> "file-protocol-action" /\
  (forall r, "saved/xyz" <> "file-protocol-action/" +:+ r) /\
  processInitialPath (calm_env None) s =
    (Ok (), logged [PushState "#saved/xyz"] s).
Proof.
  intros s.
  assert (H1 : "saved/xyz" <> "") by discriminate.
  assert (H2 : "saved/xyz" <> "file-protocol-action") by discriminate.
  assert (H3 : forall r, "saved/xyz" <> "file-protocol-action/" +:+ r)
    by (intros r; discriminate).
  split; [reflexivity|]. split; [exact H1|]. split; [exact H2|].
  split; [exact H3|].
  exact (plain_start_path_navigates (calm_env None) s "saved/xyz" eq_refl
           H1 H2 H3).
Defined.

(** X15.  A start path [file-protocol-action/<source>/<action>/<id>] whose
    three parts hold no slash reaches the protocol-action handler with
    exactly those parts; for the source [google-drive] the Drive handler
    gets the action and the id as they stand in the path. *)
Theorem protocol_path_dispatch env s source action id :
  slash_free source = true -> slash_free action = true ->
  slash_free id = true ->
  startPath (initConfig s) = Some (protocol_path source action id) ->
  processInitialPath env s =
    handleDefaultProtocolActon env [source; action; id] s /\
  (source = "google-drive" ->
   processInitialPath env s =
     handleGoogleDriveAction env (Some action) (Some id) s).
Proof.
  intros Hs Ha Hi Hstart.
  assert (Hsplit : split_slash (protocol_path source action id) =
                   "file-protocol-action" :: [source; action; id]).
  { unfold protocol_path.
    change ("file-protocol-action/" +:+ source +:+ "/" +:+ action
              +:+ "/" +:+ id)
      with ("file-protocol-action" +:+ "/" +:+ source +:+ "/" +:+ action
              +:+ "/" +:+ id).
    rewrite !split_slash_segment by done. by rewrite split_slash_free. }
  rewrite (processInitialPath_protocol env s _ _ Hstart Hsplit).
  split; [done|]. intros ->. unfold handleDefaultProtocolActon.
  by rewrite bool_decide_eq_true_2.
Qed.

Lemma protocol_path_dispatch_witness :
  let s := mkState [] true true
                   (mkInitConfig None false
                      (Some "file-protocol-action/google-drive/open/abc123"))
                   2 [AwaitingConfig; ConfigReceived; Built; PathResolved] in
  let env := calm_env (Some "{}") in
  slash_free "google-drive" = true /\ slash_free "open" = true /\
  slash_free "abc123" = true /\
  startPath (initConfig s)
    = Some (protocol_path "google-drive" "open" "abc123") /\
  processInitialPath env s =
    handleDefaultProtocolActon env ["google-drive"; "open"; "abc123"] s /\
  ("google-drive" = "google-drive" ->
   processInitialPath env s =
     handleGoogleDriveAction env (Some "open") (Some "abc123") s).
Proof.
  intros s env. do 4 (split; [reflexivity|]).
  exact (protocol_path_dispatch env s "google-drive" "open" "abc123"
           eq_refl eq_refl eq_refl eq_refl).
Defined.

(** *** The Drive handler *)

Ltac no_import H :=
  cbn [fst snd trace] in H;
  rewrite ?elem_of_app, ?elem_of_cons, ?elem_of_nil in H;
  try done;
  repeat (destruct H as [H|H]; try done; try discriminate).

(** X16.  The Drive handler dispatches [import-process-data] only with
    data that Drive returned and [JSON.parse] accepted: if the event is
    dispatched with [d], the action was [open], Drive returned a non-empty
    string, parsing it gave [d], and the handler returned normally. *)
Theorem import_only_after_parse env action fileId s d :
  DispatchImport d ∈
    trace (snd (handleGoogleDriveAction env action fileId s)) ->
  DispatchImport d ∉ trace s ->
  action = Some "open" /\
  exists data,
    drive_getFile env fileId = Ok (Some data) /\
    data <> "" /\
    json_parse env data = Ok d /\
    fst (handleGoogleDriveAction env action fileId s) = Ok ().
Proof.
  intros Hin Hout. revert Hin.
  unfold handleGoogleDriveAction, app_call, invoke, bind, try_catch, emit,
    get, lift, throw, ret.
  destruct (decide (action = Some "open")) as [Hact|Hact].
  2: { rewrite bool_decide_eq_false_2 by done. cbn [negb].
       intros H. no_import H. }
  rewrite bool_decide_eq_true_2 by done. cbn [negb].
  destruct (loading_info_node env); [|intros H; no_import H].
  cbn [fst snd trace created app_element initConfig pref_loads stages].
  destruct (drive_getFile env fileId) as [data|e] eqn:Hget;
    [|intros H; no_import H].
  destruct data as [data|]; cbn [falsy default].
  2: { destruct (app_element s);
         cbn [fst snd trace created app_element initConfig pref_loads stages];
         [destruct (handler_throws env App _ _)|];
         intros H; no_import H. }
  destruct data as [|c data]; cbn [falsy].
  { destruct (app_element s);
      cbn [fst snd trace created app_element initConfig pref_loads stages];
      [destruct (handler_throws env App _ _)|];
      intros H; no_import H. }
  change (id (String c data)) with (String c data).
  destruct (json_parse env (String c data)) as [parsed|cause] eqn:Hparse.
  - intros H. cbn [fst snd trace] in H.
    rewrite !elem_of_app, !elem_of_cons, !elem_of_nil in H.
    destruct H as [[[?|[?|[]]]|[?|[]]]|[H|[]]]; try done; try discriminate.
    injection H as ->. split; [done|]. exists (String c data).
    split; [done|]. split; [done|]. split; [done|]. reflexivity.
  - cbn [fst snd trace created app_element initConfig pref_loads stages].
    destruct (app_element s);
      cbn [fst snd trace created app_element initConfig pref_loads stages];
      [destruct (handler_throws env App _ _)|];
      intros H; no_import H.
Qed.

Lemma import_only_after_parse_witness :
  let env := calm_env (Some "{}") in
  let s := mkState [] true true emptyConfig 2
                   [AwaitingConfig; ConfigReceived; Built; PathResolved] in
  DispatchImport (VRecord []) ∈
    trace (snd (handleGoogleDriveAction env (Some "open") (Some "abc123") s))
  /\
  (DispatchImport (VRecord []) ∉ trace s) /\
  Some "open" = Some "open" /\
  exists data,
    drive_getFile env (Some "abc123") = Ok (Some data) /\
    data <> "" /\
    json_parse env data = Ok (VRecord []) /\
    fst (handleGoogleDriveAction env (Some "open") (Some "abc123") s) = Ok ().
Proof.
  intros env s.
  assert (H1 : DispatchImport (VRecord []) ∈
                 trace (snd (handleGoogleDriveAction env (Some "open")
                               (Some "abc123") s)))
    by (vm_compute; do 2 right; by left).
  assert (H2 : DispatchImport (VRecord []) ∉ trace s)
    by apply not_elem_of_nil.
  split; [exact H1|]. split; [exact H2|].
  exact (import_only_after_parse env (Some "open") (Some "abc123") s
           (VRecord []) H1 H2).
Defined.

End LifecycleMore.

(** ** Update events, menu state, remote-call replies, external files *)
Module WindowFacts.
Import ArcWindow.

Lemma update_events_snoc evs ev w :
  update_events (evs ++ [ev]) w =
    updateEventHandler (fst ev) (snd ev) (update_events evs w).
Proof. unfold update_events. by rewrite foldl_app. Qed.

Lemma update_events_absent evs w :
  app w = None -> update_events evs w = w.
Proof.
  intros H. induction evs as [|ev evs IH] using rev_ind; [done|].
  rewrite update_events_snoc, IH. unfold updateEventHandler. by rewrite H.
Qed.

Lemma update_events_present evs : forall w a,
  app w = Some a ->
  exists a',
    app (update_events evs w) = Some a' /\
    hasAppUpdate a' =
      hasAppUpdate a ||
      existsb (fun ev => String.eqb (fst ev) "update-downloaded") evs /\
    updateState a' =
      match last evs with
      | Some ev => Some (fst ev)
      | None => updateState a
      end /\
    menuConfig a' = menuConfig a /\ selected a' = selected a /\
    requestUpdates a' = requestUpdates a /\
    notifications a' = notifications a /\
    sent (update_events evs w) = sent w.
Proof.
  induction evs as [|ev evs IH] using rev_ind; intros w a Hw.
  - exists a. cbn. rewrite orb_false_r. by repeat split.
  - destruct (IH w a Hw) as (a1 & Ha1 & Hup & _ & Hm & Hsel & Hreq & Hn & Hs).
    rewrite update_events_snoc, existsb_app, last_snoc.
    unfold updateEventHandler. rewrite Ha1. cbn [existsb].
    rewrite orb_false_r, orb_assoc, <- Hup.
    destruct (String.eqb (fst ev) "update-downloaded");
      destruct (truthy (snd ev)); eexists;
      (split; [reflexivity|]); cbn; rewrite ?orb_true_r, ?orb_false_r;
      by repeat split.
Qed.

(** X17.  Update events from the main process: while the application
    element is not in the document they change nothing and do not throw;
    once it is, after any series of events [updateState] holds the type of
    the last one, and [hasAppUpdate] is set exactly when it was set before
    or one of the events was [update-downloaded] -- no later event clears
    it.  The menu state, the selected tab and the replies are not
    touched. *)
Theorem update_events_track_download (evs : list (string * value)) w :
  (app w = None -> update_events evs w = w) /\
  (forall a, app w = Some a ->
     exists a',
       app (update_events evs w) = Some a' /\
       hasAppUpdate a' =
         hasAppUpdate a ||
         existsb (fun ev => String.eqb (fst ev) "update-downloaded") evs /\
       updateState a' =
         match last evs with
         | Some ev => Some (fst ev)
         | None => updateState a
         end /\
       menuConfig a' = menuConfig a /\ selected a' = selected a /\
       sent (update_events evs w) = sent w).
Proof.
  split; [apply update_events_absent|].
  intros a Hw.
  destruct (update_events_present evs w a Hw)
    as (a' & H1 & H2 & H3 & H4 & H5 & _ & _ & H6).
  by exists a'.
Qed.

Example update_events_example :
  let w := update_events [("checking-for-update", VUndefined);
                          ("update-downloaded", VRecord []);
                          ("update-not-available", VUndefined)]
                         fresh_window in
  (hasAppUpdate <$> app w) = Some true /\
  (updateState <$> app w) = Some (Some "update-not-available") /\
  console w = [Log [VStr "update-downloaded"; VRecord []]].
Proof. repeat split. Qed.

(** *** Menu state *)

Lemma menu_of_set cfg a : menu_of (set_menuConfig cfg a) = cfg.
Proof. reflexivity. Qed.

(** X18.  [_toggleMenuWindow] flips the flag [menuDisabled] (a flag that
    was never written counts as off) and asks for one update; toggling
    twice brings the flag back to what it was.  No other key of the menu
    configuration changes. *)
Theorem toggle_menu_twice w a :
  app w = Some a ->
  exists w1 a1 w2 a2,
    _toggleMenuWindow w = (Ok (), w1) /\ app w1 = Some a1 /\
    flag "menuDisabled" (menu_of a1) = negb (flag "menuDisabled" (menu_of a)) /\
    _toggleMenuWindow w1 = (Ok (), w2) /\ app w2 = Some a2 /\
    flag "menuDisabled" (menu_of a2) = flag "menuDisabled" (menu_of a) /\
    (forall key, key <> "menuDisabled" ->
                 menu_of a2 !! key = menu_of a !! key) /\
    requestUpdates a2 = S (S (requestUpdates a)).
Proof.
  intros Hw. unfold _toggleMenuWindow at 1. rewrite Hw.
  eexists _, _, _, _. split; [reflexivity|]. split; [reflexivity|].
  split.
  { unfold flag. cbn [menu_of menuConfig requestUpdate set_menuConfig from_option id].
    by rewrite lookup_insert_eq. }
  unfold _toggleMenuWindow. cbn [app set_app].
  split; [reflexivity|]. split; [reflexivity|].
  cbn [menu_of menuConfig requestUpdate set_menuConfig requestUpdates
       from_option id].
  fold (menu_of a). unfold flag. split; [|split; [|done]].
  - rewrite !lookup_insert_eq. cbn. apply negb_involutive.
  - intros key Hk. by rewrite !lookup_insert_ne.
Qed.

Lemma toggle_menu_twice_witness :
  app fresh_window = Some fresh_app /\
  exists w1 a1 w2 a2,
    _toggleMenuWindow fresh_window = (Ok (), w1) /\ app w1 = Some a1 /\
    flag "menuDisabled" (menu_of a1)
      = negb (flag "menuDisabled" (menu_of fresh_app)) /\
    _toggleMenuWindow w1 = (Ok (), w2) /\ app w2 = Some a2 /\
    flag "menuDisabled" (menu_of a2) = flag "menuDisabled" (menu_of fresh_app)
    /\
    (forall key, key <> "menuDisabled" ->
                 menu_of a2 !! key = menu_of fresh_app !! key) /\
    requestUpdates a2 = S (S (requestUpdates fresh_app)).
Proof.
  split; [reflexivity|].
  exact (toggle_menu_twice fresh_window fresh_app eq_refl).
Defined.

Lemma menu_key_cases type :
  menu_key type =
    if String.eqb type "history-menu" then Some "hideHistory"
    else if String.eqb type "saved-menu" then Some "hideSaved"
    else if String.eqb type "projects-menu" then Some "hideProjects"
    else if String.eqb type "rest-api-menu" then Some "hideApis"
    else if String.eqb type "*" then Some "menuDisabled"
    else None.
Proof. reflexivity. Qed.

Lemma menu_key_injective t1 t2 key :
  menu_key t1 = Some key -> menu_key t2 = Some key -> t1 = t2.
Proof.
  rewrite !menu_key_cases. intros H1 H2.
  repeat match type of H1 with
         | context [String.eqb t1 ?l] =>
             destruct (String.eqb_spec t1 l) as [->|?]
         end;
    repeat match type of H2 with
           | context [String.eqb t2 ?l] =>
               destruct (String.eqb_spec t2 l) as [->|?]
           end;
    cbn in *; congruence.
Qed.

(** X19.  A popup-menu notification writes one key of the menu
    configuration: a known menu type sets its own key to the given value,
    leaves every other key as it was and asks for one update, and
    different menu types write different keys; an unknown type writes no
    key, asks for no update and logs the warning [Unknown menu state]. *)
Theorem menu_option_writes_one_key type (value : bool) w a :
  app w = Some a ->
  exists w' a',
    _menuToggleOption type value w = (Ok (), w') /\ app w' = Some a' /\
    match menu_key type with
    | Some key =>
        menu_of a' !! key = Some value /\
        (forall k, k <> key -> menu_of a' !! k = menu_of a !! k) /\
        requestUpdates a' = S (requestUpdates a) /\
        console w' = console w /\
        (forall type', menu_key type' = Some key -> type' = type)
    | None =>
        menu_of a' = menu_of a /\
        requestUpdates a' = requestUpdates a /\
        console w' = console w ++ [Warn [VStr "Unknown menu state"]]
    end.
Proof.
  intros Hw. unfold _menuToggleOption. rewrite Hw.
  destruct (menu_key type) as [key|] eqn:Hkey.
  - eexists _, _. split; [reflexivity|]. split; [reflexivity|].
    cbn [menu_of menuConfig requestUpdate set_menuConfig requestUpdates
         from_option id console set_app].
    fold (menu_of a). split; [by rewrite lookup_insert_eq|].
    split; [intros k Hk; by rewrite lookup_insert_ne|].
    split; [done|]. split; [done|].
    intros type' H'. by apply (menu_key_injective type' type key).
  - eexists _, _. split; [reflexivity|]. split; [reflexivity|]. done.
Qed.

Lemma menu_option_writes_one_key_witness :
  app fresh_window = Some fresh_app /\
  exists w' a',
    _menuToggleOption "saved-menu" true fresh_window = (Ok (), w') /\
    app w' = Some a' /\
    menu_of a' !! "hideSaved" = Some true /\
    (forall k, k <> "hideSaved" -> menu_of a' !! k = menu_of fresh_app !! k) /\
    requestUpdates a' = S (requestUpdates fresh_app) /\
    console w' = console fresh_window /\
    (forall type', menu_key type' = Some "hideSaved" -> type' = "saved-menu").
Proof.
  split; [reflexivity|].
  exact (menu_option_writes_one_key "saved-menu" true fresh_window fresh_app
           eq_refl).
Defined.

(** *** Remote-call replies *)

(** A reply [(k, false, ...rest)] handed to the correlator resolves the
    oldest pending call with id [k]. *)
Lemma deliver_resolves k rest s l1 p l2 :
  ArcBase.consistent s ->
  ArcBase._promises s = l1 ++ p :: l2 ->
  k ∉ map ArcBase.id l1 -> ArcBase.id p = k ->
  exists s',
    deliver (VNum k :: VBool false :: rest) s = Some (Ok (), s') /\
    ArcBase._promises s' = l1 ++ l2 /\
    ArcBase.heap s' !! ArcBase.target p =
      Some (ArcBase.mkPromise (ArcBase.spec_settlement false rest) 1).
Proof.
  intros [_ Hall] Hl H1 Hp. unfold deliver.
  change (truthy (arg (VBool false :: rest) 0)) with false.
  change (drop 1 (VBool false :: rest)) with rest.
  rewrite (Correlator.callback_found k false rest s l1 p l2 Hl H1 Hp).
  eexists. split; [reflexivity|].
  assert (Hpend : ArcBase.heap s !! ArcBase.target p
                  = Some (ArcBase.mkPromise ArcBase.Pending 0)).
  { rewrite Forall_forall in Hall. apply Hall. rewrite Hl.
    apply elem_of_app. right. by left. }
  split; [by rewrite Correlator.settle_promises|].
  rewrite Correlator.settle_pending by exact Hpend.
  cbn [ArcBase.heap ArcBase.set_promises ArcBase.write_log].
  apply list_lookup_insert_eq, (lookup_lt_Some _ _ _ Hpend).
Qed.

(** X20.  The three remote-call handlers answer with the caller's call id
    and [isError = false]; handed to [_ipcPromiseCallback] on the side
    that issued call [k], each reply resolves (never rejects) that call
    once: [get-tabs-count] with the number of tabs, [get-request-data]
    with the request of the tab, and [activate-tab], whose reply carries
    no value, with the empty list, after selecting the tab. *)
Theorem remote_replies_resolve_the_call k tabId w a s l1 p l2 :
  app w = Some a ->
  ArcBase.consistent s ->
  ArcBase._promises s = l1 ++ p :: l2 ->
  k ∉ map ArcBase.id l1 -> ArcBase.id p = k ->
  (exists args s',
     sendTabsCount (VNum k) w =
       (Ok (), send "current-tabs-count" args w) /\
     deliver args s = Some (Ok (), s') /\
     ArcBase.heap s' !! ArcBase.target p =
       Some (ArcBase.mkPromise (ArcBase.Resolved (tabsCount a)) 1)) /\
  (exists args s',
     getRequestData (VNum k) tabId w =
       (Ok (), send "request-data" args w) /\
     deliver args s = Some (Ok (), s') /\
     ArcBase.heap s' !! ArcBase.target p =
       Some (ArcBase.mkPromise (ArcBase.Resolved (activeRequests a tabId)) 1))
  /\
  (exists args s',
     activateTab (VNum k) tabId w =
       (Ok (), send "tab-activated" args (set_app (set_selected tabId a) w)) /\
     deliver args s = Some (Ok (), s') /\
     ArcBase.heap s' !! ArcBase.target p =
       Some (ArcBase.mkPromise (ArcBase.Resolved (VArr [])) 1)).
Proof.
  intros Hw Hs Hl H1 Hp.
  unfold sendTabsCount, getRequestData, activateTab. rewrite Hw.
  split; [|split].
  - destruct (deliver_resolves k [tabsCount a] s l1 p l2 Hs Hl H1 Hp)
      as (s' & Hd & _ & Hh).
    by eexists _, s'.
  - destruct (deliver_resolves k [activeRequests a tabId] s l1 p l2
                Hs Hl H1 Hp) as (s' & Hd & _ & Hh).
    by eexists _, s'.
  - destruct (deliver_resolves k [] s l1 p l2 Hs Hl H1 Hp)
      as (s' & Hd & _ & Hh).
    by eexists _, s'.
Qed.

Lemma remote_replies_resolve_the_call_witness :
  let s := snd (ArcBase.appendPromise 7 ArcBase.init) in
  let p := ArcBase.mkPendingCall 7 0%nat in
  app fresh_window = Some fresh_app /\
  ArcBase.consistent s /\
  ArcBase._promises s = [] ++ p :: [] /\
  (7 ∉ map ArcBase.id []) /\ ArcBase.id p = 7 /\
  (exists args s',
     sendTabsCount (VNum 7) fresh_window =
       (Ok (), send "current-tabs-count" args fresh_window) /\
     deliver args s = Some (Ok (), s') /\
     ArcBase.heap s' !! ArcBase.target p =
       Some (ArcBase.mkPromise (ArcBase.Resolved (tabsCount fresh_app)) 1)) /\
  (exists args s',
     getRequestData (VNum 7) (VNum 0) fresh_window =
       (Ok (), send "request-data" args fresh_window) /\
     deliver args s = Some (Ok (), s') /\
     ArcBase.heap s' !! ArcBase.target p =
       Some (ArcBase.mkPromise
               (ArcBase.Resolved (activeRequests fresh_app (VNum 0))) 1)) /\
  (exists args s',
     activateTab (VNum 7) (VNum 0) fresh_window =
       (Ok (), send "tab-activated" args
                    (set_app (set_selected (VNum 0) fresh_app) fresh_window))
     /\
     deliver args s = Some (Ok (), s') /\
     ArcBase.heap s' !! ArcBase.target p =
       Some (ArcBase.mkPromise (ArcBase.Resolved (VArr [])) 1)).
Proof.
  intros s p.
  assert (Hs : ArcBase.consistent s)
    by (apply Correlator.consistent_appendPromise,
          Correlator.consistent_init).
  assert (Hnil : 7 ∉ map ArcBase.id []) by apply not_elem_of_nil.
  split; [reflexivity|]. split; [exact Hs|]. split; [reflexivity|].
  split; [exact Hnil|]. split; [reflexivity|].
  exact (remote_replies_resolve_the_call 7 (VNum 0) fresh_window fresh_app s
           [] p [] eq_refl Hs eq_refl Hnil eq_refl).
Defined.

(** *** External files *)

Lemma processExternalFile_preprocessor processFile f w :
  __importPreprocessor (snd (processExternalFile processFile f w)) = true /\
  preprocessors (snd (processExternalFile processFile f w)) =
    if __importPreprocessor w then preprocessors w else S (preprocessors w).
Proof.
  unfold processExternalFile, importPreprocessor.
  destruct (__importPreprocessor w) eqn:Hp;
    destruct (processFile f); cbn [snd];
    try destruct (app _); cbn; by rewrite ?Hp.
Qed.

(** X21.  A file that cannot be processed does not make
    [processExternalFile] fail: with the application element in the
    document the cause is shown to the user by its message and written to
    the console, and the call returns [undefined]; nothing is sent and the
    rest of the element is as before. *)
Theorem external_file_failure_is_shown processFile filePath w a cause :
  app w = Some a ->
  processFile filePath = Throw cause ->
  exists w' a',
    processExternalFile processFile filePath w = (Ok VUndefined, w') /\
    app w' = Some a' /\
    notifications a' = notifications a ++ [message cause] /\
    console w' = console w ++ [Failure cause] /\
    sent w' = sent w /\
    menuConfig a' = menuConfig a /\ hasAppUpdate a' = hasAppUpdate a.
Proof.
  intros Hw Hf. unfold processExternalFile. rewrite Hf.
  assert (Ha : app (importPreprocessor w) = Some a)
    by (unfold importPreprocessor; by destruct (__importPreprocessor w)).
  rewrite Ha. eexists _, _. split; [reflexivity|]. split; [reflexivity|].
  unfold importPreprocessor. by destruct (__importPreprocessor w).
Qed.

Lemma external_file_failure_is_shown_witness :
  let cause := newError "Unknown file format" in
  let processFile := fun _ : value => @Throw value cause in
  app fresh_window = Some fresh_app /\
  processFile (VStr "/tmp/data.bin") = Throw cause /\
  exists w' a',
    processExternalFile processFile (VStr "/tmp/data.bin") fresh_window
      = (Ok VUndefined, w') /\
    app w' = Some a' /\
    notifications a' = notifications fresh_app ++ [message cause] /\
    console w' = console fresh_window ++ [Failure cause] /\
    sent w' = sent fresh_window /\
    menuConfig a' = menuConfig fresh_app /\
    hasAppUpdate a' = hasAppUpdate fresh_app.
Proof.
  intros cause processFile. split; [reflexivity|]. split; [reflexivity|].
  exact (external_file_failure_is_shown processFile (VStr "/tmp/data.bin")
           fresh_window fresh_app cause eq_refl eq_refl).
Defined.

(** X22.  The import preprocessor is created on first use and kept:
    however many files are processed, and whether or not they fail, at
    most one instance is created -- exactly one when none existed and at
    least one file was processed. *)
Theorem preprocessor_created_once processFile (files : list value) w :
  preprocessors (process_files processFile files w) =
    if __importPreprocessor w || bool_decide (files = [])
    then preprocessors w else S (preprocessors w).
Proof.
  revert w. induction files as [|f files IH]; intros w.
  - cbn. by rewrite orb_true_r.
  - change (process_files processFile (f :: files) w)
      with (process_files processFile files
              (snd (processExternalFile processFile f w))).
    rewrite IH.
    destruct (processExternalFile_preprocessor processFile f w) as [-> ->].
    cbn [orb]. rewrite bool_decide_eq_false_2 by done.
    by rewrite orb_false_r.
Qed.

End WindowFacts.
